(** * morphic.py: geometry, the morph tree, damage reporting and the hand

    A shallow embedding of the core of [morphic.py]: the value types
    [Point] and [Rectangle], the object graph of [Node]/[Morph] objects
    (parent back-references and ordered child lists), the damage list of
    the [World] and the pointer protocol of the [Hand].

    Python objects live in a heap addressed by references; recursive
    methods take a fuel argument and every method returns a [result]
    that tells a value from a raised exception and from exhausted fuel. *)

From Stdlib Require Import ZArith List Bool Lia Arith String.
From Stdlib Require Import Floats.SpecFloat.
Import ListNotations.

Set Implicit Arguments.

(** ** Coordinates

    [Point] is duck-typed over its coordinates: the source only applies
    [+], [-], [*], unary [-] and the comparisons to them, and writes
    integer literals.  [Number] collects exactly these operators. *)

Class Number (N : Type) := {
  lit : Z -> N;
  num_add : N -> N -> N;
  num_sub : N -> N -> N;
  num_mul : N -> N -> N;
  num_neg : N -> N;
  num_eq : N -> N -> bool;
  num_lt : N -> N -> bool;
  num_le : N -> N -> bool
}.

(** Python's [a > b] and [a >= b] on numbers. *)
Definition num_gt {N} `{Number N} (a b : N) : bool := num_lt b a.
Definition num_ge {N} `{Number N} (a b : N) : bool := num_le b a.

(** The builtins [max(a, b)] and [min(a, b)]: the first argument is kept
    unless the second is strictly greater (smaller). *)
Definition py_max {N} `{Number N} (a b : N) : N := if num_gt b a then b else a.
Definition py_min {N} `{Number N} (a b : N) : N := if num_lt b a then b else a.

(** Python [int]: unbounded integers, exact arithmetic. *)
#[export] Instance int_Number : Number Z := {
  lit := fun z => z;
  num_add := Z.add;
  num_sub := Z.sub;
  num_mul := Z.mul;
  num_neg := Z.opp;
  num_eq := Z.eqb;
  num_lt := Z.ltb;
  num_le := Z.leb
}.

(** Python [float]: IEEE 754 binary64, round to nearest even. *)
Definition prec : Z := 53.
Definition emax : Z := 1024.

(** [float(z)] for an integer literal [z] of the source: the nearest
    binary64 value. *)
Definition float_of_int (z : Z) : spec_float :=
  binary_normalize prec emax z 0 false.

#[export] Instance float_Number : Number spec_float := {
  lit := float_of_int;
  num_add := SFadd prec emax;
  num_sub := SFsub prec emax;
  num_mul := SFmul prec emax;
  num_neg := SFopp;
  num_eq := SFeqb;
  num_lt := SFltb;
  num_le := SFleb
}.

(** ** Point *)

Record Point (N : Type) := mkPoint { x : N; y : N }.
Arguments mkPoint {N} _ _.
Arguments x {N} _.
Arguments y {N} _.

Section PointOps.
Context {N : Type} `{Number N}.

(* Point.__eq__, __ne__ *)
Definition point_eq (p q : Point N) : bool := num_eq (x p) (x q) && num_eq (y p) (y q).
Definition point_ne (p q : Point N) : bool := negb (point_eq p q).
(* Point.__lt__, __gt__, __le__, __ge__ *)
Definition point_lt (p q : Point N) : bool := num_lt (x p) (x q) && num_lt (y p) (y q).
Definition point_gt (p q : Point N) : bool := num_gt (x p) (x q) && num_gt (y p) (y q).
Definition point_le (p q : Point N) : bool := num_le (x p) (x q) && num_le (y p) (y q).
Definition point_ge (p q : Point N) : bool := num_ge (x p) (x q) && num_ge (y p) (y q).
(* Point.max, Point.min *)
Definition point_max (p q : Point N) : Point N :=
  mkPoint (py_max (x p) (x q)) (py_max (y p) (y q)).
Definition point_min (p q : Point N) : Point N :=
  mkPoint (py_min (x p) (x q)) (py_min (y p) (y q)).
(* Point.__add__, __sub__, __neg__ with a Point operand *)
Definition point_add (p q : Point N) : Point N :=
  mkPoint (num_add (x p) (x q)) (num_add (y p) (y q)).
Definition point_sub (p q : Point N) : Point N :=
  mkPoint (num_sub (x p) (x q)) (num_sub (y p) (y q)).
Definition point_neg (p : Point N) : Point N := mkPoint (num_neg (x p)) (num_neg (y p)).
End PointOps.


(** [Point.rotate(direction, center)].  [direction] is a string or a
    number; for a number the source calls [math.radians], [math.cos] and
    [math.sin], library functions that enter here as [cos_deg] and
    [sin_deg] (cosine and sine of an angle given in degrees).  [None]
    stands for the [NotImplemented] the source returns otherwise. *)
Inductive Direction (N : Type) :=
  | Named (s : string)
  | Numeric (a : N).
Arguments Named {N} _.
Arguments Numeric {N} _.

Section Rotate.
Context {N : Type} `{Number N}.
Variables cos_deg sin_deg : N -> N.

Definition rotate (self : Point N) (direction : Direction N)
    (center : Point N) : option (Point N) :=
  let offset := point_sub self center in
  match direction with
  | Named s =>
      if String.eqb s "right" then
        Some (point_add (mkPoint (num_neg (y offset)) (y offset)) center)
      else if String.eqb s "left" then
        Some (point_add (mkPoint (y offset) (num_neg (y offset))) center)
      else if String.eqb s "pi" then
        Some (point_sub center offset)
      else None
  | Numeric a =>
      let perp := mkPoint (num_neg (y self)) (x self) in
      let c := cos_deg a in
      let s := sin_deg a in
      Some (mkPoint (num_add (num_mul (x self) c) (num_mul (x perp) s))
                    (num_add (num_mul (y self) c) (num_mul (y perp) s)))
  end.
End Rotate.

(** ** Rectangle *)

Record Rectangle (N : Type) := mkRectangle { origin : Point N; corner : Point N }.
Arguments mkRectangle {N} _ _.
Arguments origin {N} _.
Arguments corner {N} _.

Section RectangleOps.
Context {N : Type} `{Number N}.

Definition extent (r : Rectangle N) : Point N := point_sub (corner r) (origin r).
Definition width (r : Rectangle N) : N := num_sub (x (corner r)) (x (origin r)).
Definition height (r : Rectangle N) : N := num_sub (y (corner r)) (y (origin r)).

(* Rectangle.__eq__ *)
Definition rectangle_eq (r s : Rectangle N) : bool :=
  point_eq (origin r) (origin s) && point_eq (corner r) (corner s).

Definition intersect (self aRectangle : Rectangle N) : Rectangle N :=
  mkRectangle (point_max (origin self) (origin aRectangle))
              (point_min (corner self) (corner aRectangle)).

Definition merge (self aRectangle : Rectangle N) : Rectangle N :=
  mkRectangle (point_min (origin self) (origin aRectangle))
              (point_max (corner self) (corner aRectangle)).

(* [self.origin <= point < self.corner], a chained comparison *)
Definition contains_point (self : Rectangle N) (point : Point N) : bool :=
  point_le (origin self) point && point_lt point (corner self).

Definition contains_rectangle (self rect : Rectangle N) : bool :=
  point_le (origin self) (origin rect) && point_le (corner rect) (corner self).

(* Rectangle.translate_by with a Point factor *)
Definition translate_by (self : Rectangle N) (factor : Point N) : Rectangle N :=
  mkRectangle (point_add (origin self) factor) (point_add (corner self) factor).
End RectangleOps.

(** ** Classes

    The classes of the source that derive from [Morph], with Python's
    method resolution order ([__mro__], cut after [Morph]). *)

Module Class.
Inductive t :=
  | Morph | Resizer | Blinker | Shadow | Widget | ColorPalette
  | GrayPalette | ColorPicker | Ellipse | Polygon | CircleBox
  | SliderButton | Slider | RoundedBox | Menu | SelectionMenu
  | Trigger | MenuItem | Bouncer | String | TextCursor | Text
  | Hand | Frame | StringField | World.

Definition eq_dec (c k : t) : {c = k} + {c <> k}.
Proof. decide equality. Defined.

Definition eqb (c k : t) : bool := if eq_dec c k then true else false.

Definition mro (c : t) : list t :=
  match c with
  | Morph => [Morph]
  | Resizer => [Resizer; Morph]
  | Blinker => [Blinker; Morph]
  | Shadow => [Shadow; Morph]
  | Widget => [Widget; Morph]
  | ColorPalette => [ColorPalette; Morph]
  | GrayPalette => [GrayPalette; ColorPalette; Morph]
  | ColorPicker => [ColorPicker; Widget; Morph]
  | Ellipse => [Ellipse; Morph]
  | Polygon => [Polygon; Morph]
  | CircleBox => [CircleBox; Morph]
  | SliderButton => [SliderButton; CircleBox; Morph]
  | Slider => [Slider; CircleBox; Morph]
  | RoundedBox => [RoundedBox; Morph]
  | Menu => [Menu; RoundedBox; Morph]
  | SelectionMenu => [SelectionMenu; Menu; RoundedBox; Morph]
  | Trigger => [Trigger; Morph]
  | MenuItem => [MenuItem; Trigger; Widget; Morph]
  | Bouncer => [Bouncer; Morph]
  | String => [String; Morph]
  | TextCursor => [TextCursor; Blinker; Morph]
  | Text => [Text; String; Morph]
  | Hand => [Hand; Morph]
  | Frame => [Frame; Morph]
  | StringField => [StringField; Frame; Widget; Morph]
  | World => [World; Frame; Morph]
  end.

(** [isinstance(obj, k)] for an object of class [c]. *)
Definition isinstance (c k : t) : bool := existsb (eqb k) (mro c).

(** The class whose definition of a method an object of class [c]
    runs, [defs] being the classes that define the method. *)
Definition resolve (defs : list t) (c : t) : option t :=
  find (fun k => existsb (eqb k) defs) (mro c).
End Class.

(** ** Objects and the heap *)

Definition ref := nat.

(** Python exceptions the modelled methods can raise. *)
Inductive exn := ValueError | AttributeError.

Inductive result (A : Type) :=
  | Ok (a : A)
  | Raise (e : exn)
  | OutOfFuel.
Arguments Ok {A} _.
Arguments Raise {A} _.
Arguments OutOfFuel {A}.

Definition bind {A B} (r : result A) (k : A -> result B) : result B :=
  match r with
  | Ok a => k a
  | Raise e => Raise e
  | OutOfFuel => OutOfFuel
  end.

Notation "x <- e ;; k" := (bind e (fun x => k))
  (at level 61, e at next level, right associativity).

(** [f] run with enough fuel gives [v]. *)
Definition returns {A} (f : nat -> result A) (v : result A) : Prop :=
  exists n0, forall n, n0 <= n -> f n = v.

(** [list.remove(x)]: drops the first occurrence, [None] when there is
    none (Python raises [ValueError]). *)
Fixpoint list_remove (x : ref) (l : list ref) : option (list ref) :=
  match l with
  | [] => None
  | a :: l' =>
      if Nat.eqb a x then Some l'
      else match list_remove x l' with
           | Some r => Some (a :: r)
           | None => None
           end
  end.

(** [x in l] on a list of objects compared by identity. *)
Definition mem (x : ref) (l : list ref) : bool := existsb (Nat.eqb x) l.

(** Mouse events of pygame: the position and the button number. *)
Definition BUTTON_LEFT : Z := 1.
Definition BUTTON_MIDDLE : Z := 2.
Definition BUTTON_RIGHT : Z := 3.

Record MouseEvent (N : Type) := mkEvent { pos : Point N; button : Z }.
Arguments mkEvent {N} _ _.
Arguments pos {N} _.
Arguments button {N} _.

(** The button callbacks of [Morph].  Their bodies belong to the
    widgets; a dispatch is recorded as a [Call]. *)
Inductive Callback :=
  | mouse_down_left | mouse_up_left | mouse_click_left
  | mouse_down_middle | mouse_up_middle | mouse_click_middle
  | mouse_down_right | mouse_up_right | mouse_click_right.

Record Call (N : Type) := mkCall { receiver : ref; method : Callback; arg : Point N }.
Arguments mkCall {N} _ _ _.
Arguments receiver {N} _.
Arguments method {N} _.
Arguments arg {N} _.

Section Objects.
Context {N : Type} `{Number N}.

(** The attributes the modelled methods read or write.  An attribute
    a class does not have keeps its initial value and is never read
    for an object of that class. *)
Record Obj := mkObj {
  cls : Class.t;
  (* Node *)
  parent : option ref;
  children : list ref;
  (* Morph *)
  bounds : Rectangle N;
  is_visible : bool;
  is_draggable : bool;
  (* String *)
  is_editable : bool;
  (* Menu *)
  is_temporary : bool;
  (* SelectionMenu: None, or the boolean stored by a cancel *)
  choice : option bool;
  (* TextCursor *)
  target : option ref;
  (* Hand *)
  _world : option ref;
  mouse_down_morph : option ref;
  morph_to_grab : option ref;
  (* World *)
  broken : list (Rectangle N);
  open_menus : list ref;
  text_cursor : option ref;
  keyboard_receiver : option ref
}.

Definition with_parent (o : Obj) (v : option ref) : Obj :=
  mkObj (cls o) v (children o) (bounds o) (is_visible o) (is_draggable o)
    (is_editable o) (is_temporary o) (choice o) (target o) (_world o)
    (mouse_down_morph o) (morph_to_grab o) (broken o) (open_menus o)
    (text_cursor o) (keyboard_receiver o).
Definition with_children (o : Obj) (v : list ref) : Obj :=
  mkObj (cls o) (parent o) v (bounds o) (is_visible o) (is_draggable o)
    (is_editable o) (is_temporary o) (choice o) (target o) (_world o)
    (mouse_down_morph o) (morph_to_grab o) (broken o) (open_menus o)
    (text_cursor o) (keyboard_receiver o).
Definition with_bounds (o : Obj) (v : Rectangle N) : Obj :=
  mkObj (cls o) (parent o) (children o) v (is_visible o) (is_draggable o)
    (is_editable o) (is_temporary o) (choice o) (target o) (_world o)
    (mouse_down_morph o) (morph_to_grab o) (broken o) (open_menus o)
    (text_cursor o) (keyboard_receiver o).
Definition with_choice (o : Obj) (v : option bool) : Obj :=
  mkObj (cls o) (parent o) (children o) (bounds o) (is_visible o) (is_draggable o)
    (is_editable o) (is_temporary o) v (target o) (_world o)
    (mouse_down_morph o) (morph_to_grab o) (broken o) (open_menus o)
    (text_cursor o) (keyboard_receiver o).
Definition with_mouse_down_morph (o : Obj) (v : option ref) : Obj :=
  mkObj (cls o) (parent o) (children o) (bounds o) (is_visible o) (is_draggable o)
    (is_editable o) (is_temporary o) (choice o) (target o) (_world o)
    v (morph_to_grab o) (broken o) (open_menus o)
    (text_cursor o) (keyboard_receiver o).
Definition with_morph_to_grab (o : Obj) (v : option ref) : Obj :=
  mkObj (cls o) (parent o) (children o) (bounds o) (is_visible o) (is_draggable o)
    (is_editable o) (is_temporary o) (choice o) (target o) (_world o)
    (mouse_down_morph o) v (broken o) (open_menus o)
    (text_cursor o) (keyboard_receiver o).
Definition with_broken (o : Obj) (v : list (Rectangle N)) : Obj :=
  mkObj (cls o) (parent o) (children o) (bounds o) (is_visible o) (is_draggable o)
    (is_editable o) (is_temporary o) (choice o) (target o) (_world o)
    (mouse_down_morph o) (morph_to_grab o) v (open_menus o)
    (text_cursor o) (keyboard_receiver o).
Definition with_open_menus (o : Obj) (v : list ref) : Obj :=
  mkObj (cls o) (parent o) (children o) (bounds o) (is_visible o) (is_draggable o)
    (is_editable o) (is_temporary o) (choice o) (target o) (_world o)
    (mouse_down_morph o) (morph_to_grab o) (broken o) v
    (text_cursor o) (keyboard_receiver o).
Definition with_keyboard_receiver (o : Obj) (v : option ref) : Obj :=
  mkObj (cls o) (parent o) (children o) (bounds o) (is_visible o) (is_draggable o)
    (is_editable o) (is_temporary o) (choice o) (target o) (_world o)
    (mouse_down_morph o) (morph_to_grab o) (broken o) (open_menus o)
    (text_cursor o) v.

(** The heap: every reference names an object. *)
Definition Heap := ref -> Obj.

Definition upd (h : Heap) (r : ref) (o : Obj) : Heap :=
  fun r' => if Nat.eqb r' r then o else h r'.

Definition isinstance (h : Heap) (r : ref) (k : Class.t) : bool :=
  Class.isinstance (cls (h r)) k.

(** *** Node *)

Definition add_child (h : Heap) (self node : ref) : Heap :=
  let h1 := upd h self (with_children (h self) (children (h self) ++ [node])) in
  upd h1 node (with_parent (h1 node) (Some self)).

Definition remove_child (h : Heap) (self node : ref) : result Heap :=
  match list_remove node (children (h self)) with
  | None => Raise ValueError
  | Some l =>
      let h1 := upd h self (with_children (h self) l) in
      Ok (upd h1 node (with_parent (h1 node) None))
  end.

Fixpoint root (fuel : nat) (h : Heap) (self : ref) : result ref :=
  match fuel with
  | O => OutOfFuel
  | S f =>
      match parent (h self) with
      | None => Ok self
      | Some p => root f h p
      end
  end.

(** [for child in children: result.extend(f(child))] *)
Fixpoint extend_all (f : ref -> result (list ref)) (cs : list ref)
    (acc : list ref) : result (list ref) :=
  match cs with
  | [] => Ok acc
  | c :: cs' => l <- f c ;; extend_all f cs' (acc ++ l)
  end.

Fixpoint all_children (fuel : nat) (h : Heap) (self : ref) : result (list ref) :=
  match fuel with
  | O => OutOfFuel
  | S f => extend_all (all_children f h) (children (h self)) [self]
  end.

Fixpoint all_parents (fuel : nat) (h : Heap) (self : ref) : result (list ref) :=
  match fuel with
  | O => OutOfFuel
  | S f =>
      match parent (h self) with
      | None => Ok [self]
      | Some p => l <- all_parents f h p ;; Ok ([self] ++ l)
      end
  end.

(** *** Morph *)

(** [Morph.get_shadow]: the last child that is a [Shadow]. *)
Definition get_shadow (h : Heap) (self : ref) : option ref :=
  find (fun c => isinstance h c Class.Shadow) (rev (children (h self))).

(** [for child in children: result = result.merge(f(child))] *)
Fixpoint merge_all (f : ref -> result (Rectangle N)) (cs : list ref)
    (acc : Rectangle N) : result (Rectangle N) :=
  match cs with
  | [] => Ok acc
  | c :: cs' => b <- f c ;; merge_all f cs' (merge acc b)
  end.

(** [full_bounds]: [Frame] overrides [Morph]. *)
Fixpoint full_bounds (fuel : nat) (h : Heap) (self : ref) : result (Rectangle N) :=
  match fuel with
  | O => OutOfFuel
  | S f =>
      match Class.resolve [Class.Morph; Class.Frame] (cls (h self)) with
      | Some Class.Frame =>
          match get_shadow h self with
          | Some shadow => Ok (merge (bounds (h self)) (bounds (h shadow)))
          | None => Ok (bounds (h self))
          end
      | _ => merge_all (full_bounds f h) (children (h self)) (bounds (h self))
      end
  end.

(** [w.broken.append(r)] *)
Definition append_broken (h : Heap) (w : ref) (r : Rectangle N) : Heap :=
  upd h w (with_broken (h w) (broken (h w) ++ [r])).

(** [changed]: [Hand] overrides [Morph].  [copy.copy] of a rectangle
    is the rectangle, rectangles being values here. *)
Definition changed (fuel : nat) (h : Heap) (self : ref) : result Heap :=
  match Class.resolve [Class.Morph; Class.Hand] (cls (h self)) with
  | Some Class.Hand =>
      match _world (h self) with
      | None => Ok h
      | Some w =>
          b <- full_bounds fuel h self ;;
          if point_ne (extent b) (mkPoint (lit 0) (lit 0)) then
            b' <- full_bounds fuel h self ;; Ok (append_broken h w b')
          else Ok h
      end
  | _ =>
      w <- root fuel h self ;;
      if isinstance h w Class.World then Ok (append_broken h w (bounds (h self)))
      else Ok h
  end.

Definition full_changed (fuel : nat) (h : Heap) (self : ref) : result Heap :=
  w <- root fuel h self ;;
  if isinstance h w Class.World then
    b <- full_bounds fuel h self ;; Ok (append_broken h w b)
  else Ok h.

(** [Morph.delete] *)
Definition delete (fuel : nat) (h : Heap) (self : ref) : result Heap :=
  match parent (h self) with
  | Some p => h1 <- full_changed fuel h self ;; remove_child h1 p self
  | None => Ok h
  end.

Definition set_width (fuel : nat) (h : Heap) (self : ref) (width : N) : result Heap :=
  h1 <- changed fuel h self ;;
  let b := bounds (h1 self) in
  let h2 := upd h1 self (with_bounds (h1 self)
              (mkRectangle (origin b)
                 (mkPoint (num_add (x (origin b)) width) (y (corner b))))) in
  changed fuel h2 self.

Definition set_height (fuel : nat) (h : Heap) (self : ref) (height : N) : result Heap :=
  h1 <- changed fuel h self ;;
  let b := bounds (h1 self) in
  let h2 := upd h1 self (with_bounds (h1 self)
              (mkRectangle (origin b)
                 (mkPoint (x (corner b)) (num_add (y (origin b)) height)))) in
  changed fuel h2 self.

Definition set_extent (fuel : nat) (h : Heap) (self : ref) (aPoint : Point N)
    : result Heap :=
  h1 <- set_width fuel h self (py_max (x aPoint) (lit 0)) ;;
  set_height fuel h1 self (py_max (y aPoint) (lit 0)).

(** [for child in children: child.move_by(delta)] *)
Fixpoint for_each (f : Heap -> ref -> result Heap) (cs : list ref) (h : Heap)
    : result Heap :=
  match cs with
  | [] => Ok h
  | c :: cs' => h1 <- f h c ;; for_each f cs' h1
  end.

Fixpoint move_by (fuel : nat) (h : Heap) (self : ref) (delta : Point N)
    : result Heap :=
  match fuel with
  | O => OutOfFuel
  | S f =>
      h1 <- changed fuel h self ;;
      let h2 := upd h1 self (with_bounds (h1 self)
                  (translate_by (bounds (h1 self)) delta)) in
      h3 <- for_each (fun g c => move_by f g c delta) (children (h2 self)) h2 ;;
      changed fuel h3 self
  end.
(** [Morph.add] *)
Definition Morph_add (h : Heap) (self morph : ref) : result Heap :=
  match parent (h morph) with
  | Some p => h1 <- remove_child h p morph ;; Ok (add_child h1 self morph)
  | None => Ok (add_child h self morph)
  end.

(** [World.add], which ends in [super(World, self).add(morph)] *)
Definition World_add (h : Heap) (self morph : ref) : result Heap :=
  let h0 :=
    if isinstance h morph Class.Menu then
      upd h self (with_open_menus (h self) (open_menus (h self) ++ [morph]))
    else h in
  Morph_add h0 self morph.

(** [add] as it is dispatched on the class of [self]. *)
Definition add (h : Heap) (self morph : ref) : result Heap :=
  match Class.resolve [Class.Morph; Class.World] (cls (h self)) with
  | Some Class.World => World_add h self morph
  | _ => Morph_add h self morph
  end.

(** The loop of [morph_at] over [morphs[::-1]]; [None] is the value a
    Python function returns when it falls off its end. *)
Fixpoint first_hit (fuel : nat) (h : Heap) (point : Point N) (ms : list ref)
    : result (option ref) :=
  match ms with
  | [] => Ok None
  | m :: ms' =>
      fb <- full_bounds fuel h m ;;
      if contains_point fb point && negb (isinstance h m Class.Shadow)
      then Ok (Some m)
      else first_hit fuel h point ms'
  end.

Definition morph_at (fuel : nat) (h : Heap) (self : ref) (point : Point N)
    : result (option ref) :=
  morphs <- all_children fuel h self ;;
  first_hit fuel h point (rev morphs).

Definition remove_shadow (fuel : nat) (h : Heap) (self : ref) : result Heap :=
  h1 <- full_changed fuel h self ;;
  match get_shadow h1 self with
  | Some shadow => remove_child h1 self shadow
  | None => Ok h1
  end.

(** [root_for_grab]: [Resizer] and [ColorPicker] override [Morph]. *)
Fixpoint root_for_grab (fuel : nat) (h : Heap) (self : ref) : result ref :=
  match fuel with
  | O => OutOfFuel
  | S f =>
      match Class.resolve [Class.Morph; Class.Resizer; Class.ColorPicker]
              (cls (h self)) with
      | Some Class.Resizer | Some Class.ColorPicker => Ok self
      | _ =>
          match parent (h self) with
          | None => Ok self
          | Some p =>
              if isinstance h p Class.Frame then Ok self
              else root_for_grab f h p
          end
      end
  end.

(** [wants_drop_of]: [Frame] and [World] override [Morph]. *)
Definition wants_drop_of (h : Heap) (self morph : ref) : bool :=
  match Class.resolve [Class.Morph; Class.Frame; Class.World] (cls (h self)) with
  | Some Class.Frame | Some Class.World => true
  | _ => false
  end.

(** The property [handles_mouse_click] of each class that defines it. *)
Definition handles_mouse_click (h : Heap) (self : ref) : bool :=
  match Class.resolve [Class.Morph; Class.Resizer; Class.ColorPalette;
                       Class.Slider; Class.Menu; Class.Trigger; Class.MenuItem;
                       Class.String; Class.StringField; Class.World]
          (cls (h self)) with
  | Some Class.Morph => false
  | Some Class.String => is_editable (h self)
  | Some _ => true
  | None => false
  end.

(** *** Hand *)

(** The loop of [morph_at_pointer] over [self.world.children[::-1]]. *)
Fixpoint hit_top (fuel : nat) (h : Heap) (point : Point N) (w : ref)
    (ms : list ref) : result (option ref) :=
  match ms with
  | [] => Ok (Some w)
  | m :: ms' =>
      fb <- full_bounds fuel h m ;;
      if contains_point fb point && negb (isinstance h m Class.Shadow)
         && is_visible (h m)
      then morph_at fuel h m point
      else hit_top fuel h point w ms'
  end.

Definition morph_at_pointer (fuel : nat) (h : Heap) (self : ref)
    : result (option ref) :=
  match _world (h self) with
  | None => Raise AttributeError
  | Some w => hit_top fuel h (origin (bounds (h self))) w (rev (children (h w)))
  end.

(** The loop of [all_morphs_at_pointer]. *)
Fixpoint visible_hits (fuel : nat) (h : Heap) (point : Point N) (ms : list ref)
    : result (list ref) :=
  match ms with
  | [] => Ok []
  | m :: ms' =>
      if is_visible (h m) then
        fb <- full_bounds fuel h m ;;
        rest <- visible_hits fuel h point ms' ;;
        Ok (if contains_point fb point then m :: rest else rest)
      else visible_hits fuel h point ms'
  end.

Definition all_morphs_at_pointer (fuel : nat) (h : Heap) (self : ref)
    : result (list ref) :=
  match _world (h self) with
  | None => Raise AttributeError
  | Some w =>
      morphs <- all_children fuel h w ;;
      visible_hits fuel h (origin (bounds (h self))) morphs
  end.

(** [while target.wants_drop_of(morph) == False: target = target.parent] *)
Fixpoint drop_walk (fuel : nat) (h : Heap) (target : option ref) (morph : ref)
    : result ref :=
  match fuel with
  | O => OutOfFuel
  | S f =>
      match target with
      | None => Raise AttributeError
      | Some t =>
          if wants_drop_of h t morph then Ok t
          else drop_walk f h (parent (h t)) morph
      end
  end.

Definition drop_target_for (fuel : nat) (h : Heap) (self morph : ref)
    : result ref :=
  target <- morph_at_pointer fuel h self ;;
  drop_walk fuel h target morph.

Definition drop (fuel : nat) (h : Heap) (self : ref) : result Heap :=
  match children (h self) with
  | [] => Ok h
  | morph :: _ =>
      target <- drop_target_for fuel h self morph ;;
      h1 <- changed fuel h self ;;
      h2 <- add h1 target morph ;;
      h3 <- changed fuel h2 morph ;;
      h4 <- remove_shadow fuel h3 morph ;;
      let h5 := upd h4 self (with_children (h4 self) []) in
      set_extent fuel h5 self (mkPoint (lit 0) (lit 0))
  end.

(** [World.stop_editing] *)
Definition stop_editing (fuel : nat) (h : Heap) (w : ref) : result Heap :=
  h1 <- match text_cursor (h w) with
        | Some tc => delete fuel h tc
        | None => Ok h
        end ;;
  Ok (upd h1 w (with_keyboard_receiver (h1 w) None)).

(** The loop of [process_mouse_down] over [self.world.open_menus]. *)
Fixpoint dismiss_menus (fuel : nat) (h : Heap) (self : ref) (menus : list ref)
    : result Heap :=
  match menus with
  | [] => Ok h
  | menu :: rest =>
      under <- all_morphs_at_pointer fuel h self ;;
      if mem menu under then dismiss_menus fuel h self rest
      else if isinstance h menu Class.SelectionMenu then
        dismiss_menus fuel (upd h menu (with_choice (h menu) (Some false))) self rest
      else if isinstance h menu Class.Menu && is_temporary (h menu) then
        h1 <- delete fuel h menu ;; dismiss_menus fuel h1 self rest
      else dismiss_menus fuel h self rest
  end.

(** [while not morph.handles_mouse_click: morph = morph.parent] *)
Fixpoint click_walk (fuel : nat) (h : Heap) (morph : option ref) : result ref :=
  match fuel with
  | O => OutOfFuel
  | S f =>
      match morph with
      | None => Raise AttributeError
      | Some m =>
          if handles_mouse_click h m then Ok m
          else click_walk f h (parent (h m))
      end
  end.

Definition same_ref (a b : option ref) : bool :=
  match a, b with
  | Some r, Some r' => Nat.eqb r r'
  | None, None => true
  | _, _ => false
  end.

Definition process_mouse_down (fuel : nat) (h : Heap) (self : ref)
    (event : MouseEvent N) : result (Heap * list (Call N)) :=
  match children (h self) with
  | _ :: _ => h1 <- drop fuel h self ;; Ok (h1, [])
  | [] =>
      let pos := pos event in
      morph <- morph_at_pointer fuel h self ;;
      match _world (h self) with
      | None => Raise AttributeError
      | Some w =>
          h1 <- dismiss_menus fuel h self (open_menus (h w)) ;;
          h2 <- match text_cursor (h1 w) with
                | Some tc =>
                    if negb (same_ref morph (target (h1 tc)))
                    then stop_editing fuel h1 w
                    else Ok h1
                | None => Ok h1
                end ;;
          match morph with
          | None => Raise AttributeError
          | Some m =>
              g <- root_for_grab fuel h2 m ;;
              let h3 := upd h2 self (with_morph_to_grab (h2 self) (Some g)) in
              t <- click_walk fuel h3 (Some m) ;;
              let h4 := upd h3 self (with_mouse_down_morph (h3 self) (Some t)) in
              Ok (h4,
                  if Z.eqb (button event) BUTTON_LEFT then
                    [mkCall t mouse_down_left pos]
                  else if Z.eqb (button event) BUTTON_MIDDLE then
                    [mkCall t mouse_down_middle pos]
                  else if Z.eqb (button event) BUTTON_RIGHT then
                    [mkCall t mouse_down_right pos]
                  else [])
          end
      end
  end.

Section MouseUp.
(** [menu = morph.context_menu] followed by [menu.popup_at_hand] and
    [open_menus.append(menu)]: menus are laid out from pygame font
    metrics, so the effect of popping one up is left to this
    collaborator. *)
Variable context_menu_popup : Heap -> ref -> ref -> result Heap.

End MouseUp.
End Objects.

(** ** Tree configurations

    The invariant of the tree: a node lists a child exactly when it is
    the child's parent, and lists it once. *)

Section Invariants.
Context {N : Type} `{Number N}.

Definition tree_node_inv (h : @Heap N) : Prop :=
  (forall n c, parent (h c) = Some n <-> In c (children (h n))) /\
  (forall n, NoDup (children (h n))).

(** [p] is the parent of [c]; [c] is listed by [p]. *)
Definition is_parent_of (h : @Heap N) (p c : ref) : Prop := parent (h c) = Some p.
Definition is_child_of (h : @Heap N) (c p : ref) : Prop := In c (children (h p)).

(** No node is its own ancestor: the chain of parents above a node
    ends, and so does every chain of children below it. *)
Definition ancestors_end (h : @Heap N) (r : ref) : Prop := Acc (is_parent_of h) r.
Definition subtree_ends (h : @Heap N) (r : ref) : Prop := Acc (is_child_of h) r.
End Invariants.

Section Frames.
Context {N : Type} `{Number N}.

(** [g] has the links and classes of [h]: what the tree walks read. *)
Definition same_links (h g : @Heap N) : Prop :=
  forall r, cls (g r) = cls (h r) /\ parent (g r) = parent (h r) /\
            children (g r) = children (h r) /\ _world (g r) = _world (h r).

(** [g] is [h] with more damage recorded: only [broken] lists differ. *)
Definition only_damage (h g : @Heap N) : Prop :=
  forall r, exists l, g r = with_broken (h r) l.
End Frames.

Section Moves.
Context {N : Type} `{Number N}.

(** A rectangle translated [k] times by [d]. *)
Definition translate_times (k : nat) (d : Point N) (b : Rectangle N) : Rectangle N :=
  Nat.iter k (fun b0 => translate_by b0 d) b.

(** [g] is [h] after one translation by [d] for each occurrence of a
    node in [l] (and some damage recorded). *)
Definition moved (l : list ref) (d : Point N) (h g : @Heap N) : Prop :=
  same_links h g /\
  forall r, bounds (g r) = translate_times (count_occ Nat.eq_dec l r) d (bounds (h r)).
End Moves.

Section HitTests.
Context {N : Type} `{Number N}.

(** [x] is [a] or one of its descendants. *)
Inductive descends (h : @Heap N) (a : ref) : ref -> Prop :=
  | descends_self : descends h a a
  | descends_child x c :
      descends h a x -> In c (children (h x)) -> descends h a c.

(** The test [morph_at] makes on [m], with the full bounds that fuel
    [n] gives. *)
Definition hit (n : nat) (h : @Heap N) (p : Point N) (m : ref) : bool :=
  match full_bounds n h m with
  | Ok fb => contains_point fb p && negb (isinstance h m Class.Shadow)
  | _ => false
  end.
End HitTests.

(** ** Buttons and their callbacks *)

Definition down_callback (b : Z) : option Callback :=
  if Z.eqb b BUTTON_LEFT then Some mouse_down_left
  else if Z.eqb b BUTTON_MIDDLE then Some mouse_down_middle
  else if Z.eqb b BUTTON_RIGHT then Some mouse_down_right
  else None.




(** ** A world to run the model on

    The world of [World(610, 314)] with its hand, a string field [4]
    holding its string [5], three overlapping plain morphs [2], [3]
    and [7] added to the world after the field, in this order, and a
    morph [6] that is in no tree.  Every other reference names a
    fresh morph. *)

Section Scenes.
Context {N : Type} `{Number N}.

Definition rect (a b c d : Z) : Rectangle N :=
  mkRectangle (mkPoint (lit a) (lit b)) (mkPoint (lit c) (lit d)).

(** An object as [Morph.__init__] leaves it. *)
Definition new_morph (c : Class.t) : @Obj N :=
  mkObj c None [] (rect 0 0 50 40) true true false false None None
        None None None [] [] None None.

Definition placed (c : Class.t) (p : option ref) (cs : list ref)
    (b : Rectangle N) : @Obj N :=
  with_bounds (with_children (with_parent (new_morph c) p) cs) b.

Definition desk : @Heap N := fun r =>
  match r with
  | 0 => placed Class.World None [4; 2; 3; 7] (rect 0 0 610 314)
  | 1 => mkObj Class.Hand None [] (rect 210 110 210 110) true true false false
               None None (Some 0) None None [] [] None None
  | 2 => placed Class.Morph (Some 0) [] (rect 0 0 50 40)
  | 3 => placed Class.Morph (Some 0) [] (rect 5 5 55 45)
  | 4 => placed Class.StringField (Some 0) [5] (rect 200 100 300 120)
  | 5 => mkObj Class.String (Some 4) [] (rect 200 100 230 120) true false true
               false None None None None None [] [] None None
  | 6 => placed Class.Morph None [] (rect 200 100 250 140)
  | 7 => placed Class.Morph (Some 0) [] (rect 8 8 58 48)
  | _ => new_morph Class.Morph
  end.

(** The desk while the hand drags morph [6]. *)
Definition dragging : @Heap N :=
  upd (upd desk 1 (with_children (desk 1) [6])) 6 (with_parent (desk 6) (Some 1)).


(** A heap of fresh morphs, none in a tree. *)
Definition loose : @Heap N := fun _ => new_morph Class.Morph.

(** Distance to the root and height, for the references of the desk. *)
Definition desk_depth (r : ref) : nat :=
  match r with
  | 2 | 3 | 4 | 7 => 1
  | 5 => 2
  | _ => 0
  end.

Definition desk_height (r : ref) : nat :=
  match r with
  | 0 => 2
  | 4 => 1
  | _ => 0
  end.

Definition dragging_depth (r : ref) : nat :=
  match r with
  | 2 | 3 | 4 | 6 | 7 => 1
  | 5 => 2
  | _ => 0
  end.

Definition dragging_height (r : ref) : nat :=
  match r with
  | 0 => 2
  | 1 | 4 => 1
  | _ => 0
  end.

(** The bounds of [m] after [move_by(d)] and [move_by(-d)]. *)
Definition there_and_back (n : nat) (h : @Heap N) (m : ref) (d : Point N)
    : option (Rectangle N) :=
  match move_by n h m d with
  | Ok h1 =>
      match move_by n h1 m (point_neg d) with
      | Ok h2 => Some (bounds (h2 m))
      | _ => None
      end
  | _ => None
  end.




(** What [changed] appends to the [broken] list of [w]. *)
Definition damage_of_changed (n : nat) (h : @Heap N) (m w : ref)
    : option (list (Rectangle N)) :=
  match changed n h m with
  | Ok g => Some (broken (g w))
  | _ => None
  end.
End Scenes.

(** ** More of Point and Rectangle *)

(** The right operand of [Point.__add__] and [Point.__sub__]: a Point
    or a number. *)
Inductive Operand (N : Type) :=
  | APoint (p : Point N)
  | AScalar (k : N).
Arguments APoint {N} _.
Arguments AScalar {N} _.

Section MoreGeometry.
Context {N : Type} `{Number N}.

(* Point.__add__, Point.__sub__ *)
Definition point_plus (self : Point N) (other : Operand N) : Point N :=
  match other with
  | APoint q => mkPoint (num_add (x self) (x q)) (num_add (y self) (y q))
  | AScalar k => mkPoint (num_add (x self) k) (num_add (y self) k)
  end.

Definition point_minus (self : Point N) (other : Operand N) : Point N :=
  match other with
  | APoint q => mkPoint (num_sub (x self) (x q)) (num_sub (y self) (y q))
  | AScalar k => mkPoint (num_sub (x self) k) (num_sub (y self) k)
  end.

(** [Point.flip(direction, center)]; [None] stands for
    [NotImplemented]. *)
Definition flip (self : Point N) (direction : string) (center : Point N)
    : option (Point N) :=
  if String.eqb direction "vertical" then
    Some (mkPoint (x self) (num_sub (num_mul (y center) (lit 2)) (y self)))
  else if String.eqb direction "horizontal" then
    Some (mkPoint (num_sub (num_mul (x center) (lit 2)) (x self)) (y self))
  else None.

Definition dot_product (self other : Point N) : N :=
  num_add (num_mul (x self) (x other)) (num_mul (y self) (y other)).

Definition cross_product (self other : Point N) : N :=
  num_sub (num_mul (x self) (y other)) (num_mul (y self) (x other)).

Definition inset_by (self : Rectangle N) (delta : Operand N) : Rectangle N :=
  mkRectangle (point_plus (origin self) delta) (point_minus (corner self) delta).

Definition expand_by (self : Rectangle N) (integer : Operand N) : Rectangle N :=
  mkRectangle (point_minus (origin self) integer) (point_plus (corner self) integer).

Definition intersects (self rect : Rectangle N) : bool :=
  let ro := origin rect in
  let rc := corner rect in
  negb (num_lt (x rc) (x (origin self)) ||
        num_lt (y rc) (y (origin self)) ||
        num_gt (x ro) (x (corner self)) ||
        num_gt (y ro) (y (corner self))).

(* the corner accessors of Rectangle *)
Definition top_left (r : Rectangle N) : Point N := origin r.
Definition bottom_right (r : Rectangle N) : Point N := corner r.
Definition bottom_left (r : Rectangle N) : Point N := mkPoint (x (origin r)) (y (corner r)).
Definition top_right (r : Rectangle N) : Point N := mkPoint (x (corner r)) (y (origin r)).
Definition corners (r : Rectangle N) : list (Point N) :=
  [top_left r; bottom_left r; bottom_right r; top_right r].
End MoreGeometry.

(** ** More of Node and Morph *)

Section MoreTree.
Context {N : Type} `{Number N}.

Fixpoint depth (fuel : nat) (h : @Heap N) (self : ref) : result nat :=
  match fuel with
  | O => OutOfFuel
  | S f =>
      match parent (h self) with
      | None => Ok 0
      | Some p => d <- depth f h p ;; Ok (d + 1)
      end
  end.

(** [siblings]: [self.parent.children] raises [AttributeError] when
    there is no parent. *)
Definition siblings (h : @Heap N) (self : ref) : result (list ref) :=
  match parent (h self) with
  | None => Raise AttributeError
  | Some p => Ok (filter (fun element => negb (Nat.eqb element self)) (children (h p)))
  end.

Definition with_is_visible (o : @Obj N) (v : bool) : @Obj N :=
  mkObj (cls o) (parent o) (children o) (bounds o) v (is_draggable o)
    (is_editable o) (is_temporary o) (choice o) (target o) (_world o)
    (mouse_down_morph o) (morph_to_grab o) (broken o) (open_menus o)
    (text_cursor o) (keyboard_receiver o).

Fixpoint hide (fuel : nat) (h : @Heap N) (self : ref) : result (@Heap N) :=
  match fuel with
  | O => OutOfFuel
  | S f =>
      let h1 := upd h self (with_is_visible (h self) false) in
      h2 <- changed fuel h1 self ;;
      for_each (fun g morph => hide f g morph) (children (h2 self)) h2
  end.

Fixpoint show (fuel : nat) (h : @Heap N) (self : ref) : result (@Heap N) :=
  match fuel with
  | O => OutOfFuel
  | S f =>
      let h1 := upd h self (with_is_visible (h self) true) in
      h2 <- changed fuel h1 self ;;
      for_each (fun g morph => show f g morph) (children (h2 self)) h2
  end.

Fixpoint toggle_visibility (fuel : nat) (h : @Heap N) (self : ref)
    : result (@Heap N) :=
  match fuel with
  | O => OutOfFuel
  | S f =>
      let h1 := upd h self (with_is_visible (h self) (negb (is_visible (h self)))) in
      h2 <- changed fuel h1 self ;;
      for_each (fun g morph => toggle_visibility f g morph) (children (h2 self)) h2
  end.

Definition set_position (fuel : nat) (h : @Heap N) (self : ref) (aPoint : Point N)
    : result (@Heap N) :=
  let delta := point_sub aPoint (top_left (bounds (h self))) in
  if negb (num_eq (x delta) (lit 0) && num_eq (y delta) (lit 0))
  then move_by fuel h self delta
  else Ok h.

(** [World.broken_for] *)
Fixpoint broken_for_loop (fb : Rectangle N) (rs : list (Rectangle N))
    : list (Rectangle N) :=
  match rs with
  | [] => []
  | r :: rs' =>
      if intersects r fb then r :: broken_for_loop fb rs' else broken_for_loop fb rs'
  end.

Definition broken_for (fuel : nat) (h : @Heap N) (self morph : ref)
    : result (list (Rectangle N)) :=
  fb <- full_bounds fuel h morph ;;
  Ok (broken_for_loop fb (broken (h self))).

(** [Hand.is_dragging] *)
Definition is_dragging (h : @Heap N) (self morph : ref) : bool :=
  match children (h self) with
  | c :: _ => Nat.eqb morph c
  | [] => false
  end.
End MoreTree.

(** ** What a move leaves alone *)

Section MoreFrames.
Context {N : Type} `{Number N}.

(** [g] is [h] with some bounds replaced and more damage recorded:
    nothing else differs, and no recorded damage is lost. *)
Definition only_moved (h g : @Heap N) : Prop :=
  forall r, exists b l, g r = with_broken (with_bounds (h r) b) (broken (h r) ++ l).
End MoreFrames.

(** ** What a change of visibility leaves alone *)

Section MoreVisibility.
Context {N : Type} `{Number N}.

(** [g] is [h] after the visibility of each node has been sent
    through [v] once for each of its occurrences in [l], with some
    damage recorded: nothing else differs. *)
Definition repainted (v : bool -> bool) (l : list ref) (h g : @Heap N) : Prop :=
  forall r, exists d,
    g r = with_broken
            (with_is_visible (h r)
               (Nat.iter (count_occ Nat.eq_dec l r) v (is_visible (h r)))) d.
End MoreVisibility.

(** ** The desk while a string is edited

    The desk after [World.edit] on the string [5]: a text cursor [8]
    with target [5] has been added to the parent of the string, the
    string field [4], and the world names it as its text cursor and
    keyboard receiver.  The cursor is one pixel wide and stands under
    the pointer. *)

Section EditingScene.
Context {N : Type} `{Number N}.

Definition editing : @Heap N := fun r =>
  match r with
  | 0 => mkObj Class.World None [4; 2; 3; 7] (rect 0 0 610 314) true true false
               false None None None None None [] [] (Some 8) (Some 8)
  | 4 => placed Class.StringField (Some 0) [5; 8] (rect 200 100 300 120)
  | 8 => mkObj Class.TextCursor (Some 4) [] (rect 210 100 211 120) true true false
               false None (Some 5) None None None [] [] None None
  | _ => desk r
  end.

Definition editing_depth (r : ref) : nat :=
  match r with
  | 2 | 3 | 4 | 7 => 1
  | 5 | 8 => 2
  | _ => 0
  end.
End EditingScene.

(** * Properties *)

(** ** Results with enough fuel *)

Section Returns.
Context {A B : Type}.

Lemma returns_const (v : result A) : returns (fun _ => v) v.
Proof. exists 0. reflexivity. Qed.

Lemma returns_ext (f g : nat -> result A) v :
  (forall n, f n = g n) -> returns g v -> returns f v.
Proof. intros E [n0 Hg]. exists n0. intros n Hn. rewrite E. now apply Hg. Qed.

Lemma returns_inj (f : nat -> result A) v v' :
  returns f v -> returns f v' -> v = v'.
Proof.
  intros [n0 H0] [n1 H1].
  rewrite <- (H0 (Nat.max n0 n1)) by lia. apply H1. lia.
Qed.

Lemma returns_bind (f : nat -> result A) (g : nat -> A -> result B) a v :
  returns f (Ok a) -> returns (fun n => g n a) v ->
  returns (fun n => bind (f n) (g n)) v.
Proof.
  intros [n0 H0] [n1 H1]. exists (Nat.max n0 n1). intros n Hn.
  rewrite H0 by lia. simpl. apply H1. lia.
Qed.

Lemma returns_step (f body : nat -> result A) v :
  (forall n, f (S n) = body n) -> returns body v -> returns f v.
Proof.
  intros E [n0 Hb]. exists (S n0). intros n Hn.
  destruct n as [|n]; [lia|]. rewrite E. apply Hb. lia.
Qed.

Lemma returns_shift (f : nat -> result A) v :
  returns f v -> returns (fun n => f (S n)) v.
Proof. intros [n0 Hf]. exists n0. intros n Hn. apply Hf. lia. Qed.
End Returns.

Arguments returns_ext {A} f g {v} _ _.
Arguments returns_inj {A} f {v v'} _ _.
Arguments returns_bind {A B} f g {a v} _ _.
Arguments returns_step {A} f body {v} _ _.
Arguments returns_shift {A} f {v} _.

(** A call that does not look at its fuel. *)
Ltac returns_now := exists 0; intros; simpl; reflexivity.


(** ** Geometry *)



Lemma point_le_int (p q : Point Z) :
  point_le p q = true <-> (x p <= x q /\ y p <= y q)%Z.
Proof.
  unfold point_le; simpl.
  rewrite andb_true_iff, !Z.leb_le. tauto.
Qed.

Lemma point_lt_int (p q : Point Z) :
  point_lt p q = true <-> (x p < x q /\ y p < y q)%Z.
Proof.
  unfold point_lt; simpl.
  rewrite andb_true_iff, !Z.ltb_lt. tauto.
Qed.

(** C7. Containment of a point is half-open: [contains_point] holds
    exactly when the origin is below or equal to the point and the
    point is strictly below the corner, componentwise, whatever the
    coordinate type; on integers this is [origin <= p < corner], so the
    rectangle (0,0)-(10,10) does not contain (10,5) and contains
    (9,9). *)
Theorem contains_point_half_open :
  (forall (N : Type) (num : Number N) (R : Rectangle N) (p : Point N),
      contains_point R p = true <->
      (num_le (x (origin R)) (x p) = true /\ num_le (y (origin R)) (y p) = true) /\
      (num_lt (x p) (x (corner R)) = true /\ num_lt (y p) (y (corner R)) = true)) /\
  (forall (R : Rectangle Z) (p : Point Z),
      contains_point R p = true <->
      (x (origin R) <= x p /\ y (origin R) <= y p)%Z /\
      (x p < x (corner R) /\ y p < y (corner R))%Z) /\
  contains_point (mkRectangle (mkPoint 0 0) (mkPoint 10 10))%Z (mkPoint 10 5)%Z = false /\
  contains_point (mkRectangle (mkPoint 0 0) (mkPoint 10 10))%Z (mkPoint 9 9)%Z = true.
Proof.
  split; [| split; [| split; reflexivity]].
  - intros N num R p. unfold contains_point, point_le, point_lt.
    rewrite !andb_true_iff. tauto.
  - intros R p. unfold contains_point.
    rewrite andb_true_iff, point_le_int, point_lt_int. tauto.
Qed.


(** C9. [rotate] with direction ['right'] or ['left'] does not rotate:
    the offset from the center is replaced by a point of the
    anti-diagonal that depends on the offset's [y] alone, so (1,0)
    turned about (0,0) lands on the center itself and all points of a
    horizontal line have one image; a numeric direction turns the
    point about (0,0) whatever the center; ['pi'] reflects through the
    center. *)
Theorem rotate_ignores_offset_x_and_center :
  (forall cs sn : Z -> Z,
      rotate cs sn (mkPoint 1 0)%Z (Named "right") (mkPoint 0 0)%Z
        = Some (mkPoint 0 0)%Z /\
      rotate cs sn (mkPoint 1 0)%Z (Named "left") (mkPoint 0 0)%Z
        = Some (mkPoint 0 0)%Z) /\
  (forall (cs sn : Z -> Z) (px qx py : Z) (c : Point Z),
      rotate cs sn (mkPoint px py) (Named "right") c
        = rotate cs sn (mkPoint qx py) (Named "right") c /\
      rotate cs sn (mkPoint px py) (Named "left") c
        = rotate cs sn (mkPoint qx py) (Named "left") c) /\
  (forall (N : Type) (num : Number N) (cs sn : N -> N) (p : Point N) (a : N)
          (c1 c2 : Point N),
      rotate cs sn p (Numeric a) c1 = rotate cs sn p (Numeric a) c2) /\
  (forall (cs sn : Z -> Z) (p c : Point Z),
      rotate cs sn p (Named "pi") c
        = Some (mkPoint (2 * x c - x p) (2 * y c - y p))%Z).
Proof.
  split; [| split; [| split]].
  - intros cs sn. split; reflexivity.
  - intros cs sn px qx py c. split; reflexivity.
  - intros N num cs sn p a c1 c2. reflexivity.
  - intros cs sn p c. unfold rotate, point_sub.
    cbn [String.eqb Ascii.eqb Bool.eqb x y num_sub int_Number].
    do 2 f_equal; lia.
Qed.

(** ** The heap *)

Section HeapFacts.
Context {N : Type} `{Number N}.
Implicit Types h : @Heap N.

Lemma upd_same h r o : upd h r o r = o.
Proof. unfold upd. now rewrite Nat.eqb_refl. Qed.

Lemma upd_other h r o r' : r' <> r -> upd h r o r' = h r'.
Proof. unfold upd. intros E. apply Nat.eqb_neq in E. now rewrite E. Qed.

Lemma upd_cases h r o r' :
  (r' = r /\ upd h r o r' = o) \/ (r' <> r /\ upd h r o r' = h r').
Proof.
  destruct (Nat.eq_dec r' r) as [->|E].
  - left. split; [reflexivity | apply upd_same].
  - right. split; [assumption | now apply upd_other].
Qed.

Lemma list_remove_spec (m : ref) (l : list ref) :
  In m l -> NoDup l ->
  exists l', list_remove m l = Some l' /\ ~ In m l' /\
             (forall a, a <> m -> (In a l' <-> In a l)) /\ NoDup l'.
Proof.
  induction l as [|a l IH]; intros Hin Hnd; [destruct Hin|].
  inversion Hnd as [|? ? Ha Hl]; subst. simpl.
  destruct (Nat.eqb_spec a m) as [->|E].
  - exists l. split; [reflexivity|]. split; [assumption|]. split; [|assumption].
    intros b Hb. simpl. split.
    + intros Hi. right. exact Hi.
    + intros [Hi|Hi]; [congruence | exact Hi].
  - simpl in Hin. destruct Hin as [Hin|Hin]; [congruence|].
    destruct (IH Hin Hl) as (l' & -> & Hn & Hiff & Hnd').
    exists (a :: l'). split; [reflexivity|]. split; [|split].
    + simpl. intros [Hi|Hi]; [congruence | auto].
    + intros b Hb. simpl. rewrite (Hiff b Hb). tauto.
    + constructor; [| exact Hnd'].
      intros Hi. apply Ha. now apply (Hiff a E).
Qed.

Lemma add_child_links h self node :
  parent (add_child h self node node) = Some self /\
  children (add_child h self node self) = children (h self) ++ [node] /\
  (forall n, n <> self -> children (add_child h self node n) = children (h n)).
Proof.
  unfold add_child. split; [| split].
  - now rewrite upd_same.
  - destruct (Nat.eq_dec self node) as [->|E].
    + rewrite !upd_same. reflexivity.
    + rewrite upd_other by assumption. now rewrite upd_same.
  - intros n Hn.
    destruct (Nat.eq_dec n node) as [->|E].
    + rewrite upd_same. simpl. now rewrite upd_other.
    + now rewrite !upd_other.
Qed.

Lemma remove_child_links h self node l :
  list_remove node (children (h self)) = Some l ->
  exists h', remove_child h self node = Ok h' /\
    children (h' self) = l /\
    (forall n, n <> self -> children (h' n) = children (h n)).
Proof.
  intros E. unfold remove_child. rewrite E.
  eexists. split; [reflexivity|]. split.
  - destruct (Nat.eq_dec self node) as [->|D].
    + rewrite !upd_same. reflexivity.
    + rewrite upd_other by assumption. now rewrite upd_same.
  - intros n Hn.
    destruct (Nat.eq_dec n node) as [->|D].
    + rewrite upd_same. simpl. now rewrite upd_other.
    + now rewrite !upd_other.
Qed.

Lemma Morph_add_reparents h (P m : ref) :
  tree_node_inv h ->
  exists h',
    Morph_add h P m = Ok h' /\
    parent (h' m) = Some P /\
    (exists l, children (h' P) = l ++ [m] /\ ~ In m l) /\
    (forall n, n <> P -> ~ In m (children (h' n))).
Proof.
  intros [Hlink Hnd]. unfold Morph_add.
  destruct (parent (h m)) as [p|] eqn:Ep.
  - (* [m] is detached from its parent [p] first *)
    assert (Hin : In m (children (h p))) by now apply Hlink.
    destruct (list_remove_spec m Hin (Hnd p)) as (l & El & Hnl & _ & _).
    destruct (remove_child_links h p m El) as (h1 & -> & Hc1 & Hc1').
    simpl.
    assert (Hfree : forall n, ~ In m (children (h1 n))).
    { intros n. destruct (Nat.eq_dec n p) as [->|D].
      - now rewrite Hc1.
      - rewrite Hc1' by assumption. intros Hi.
        apply Hlink in Hi. congruence. }
    destruct (add_child_links h1 P m) as (Hpar & Hlast & Hrest).
    eexists. split; [reflexivity|]. split; [exact Hpar|]. split.
    + exists (children (h1 P)). split; [exact Hlast | apply Hfree].
    + intros n Hn. rewrite Hrest by assumption. apply Hfree.
  - (* [m] has no parent *)
    assert (Hfree : forall n, ~ In m (children (h n))).
    { intros n Hi. apply Hlink in Hi. congruence. }
    destruct (add_child_links h P m) as (Hpar & Hlast & Hrest).
    eexists. split; [reflexivity|]. split; [exact Hpar|]. split.
    + exists (children (h P)). split; [exact Hlast | apply Hfree].
    + intros n Hn. rewrite Hrest by assumption. apply Hfree.
Qed.

Lemma tree_node_inv_open_menus h w l :
  tree_node_inv h -> tree_node_inv (upd h w (with_open_menus (h w) l)).
Proof.
  intros [Hlink Hnd].
  assert (E : forall n, parent (upd h w (with_open_menus (h w) l) n) = parent (h n) /\
                        children (upd h w (with_open_menus (h w) l) n) = children (h n)).
  { intros n. destruct (upd_cases h w (with_open_menus (h w) l) n)
      as [[-> ->]|[_ ->]]; auto. }
  split.
  - intros n c. destruct (E c) as [-> _]. destruct (E n) as [_ ->]. apply Hlink.
  - intros n. destruct (E n) as [_ ->]. apply Hnd.
Qed.

(** C1. In a tree configuration, [P.add(m)] returns, and afterwards
    [m.parent] is [P], [m] is the last element of [P.children] and
    occurs nowhere else in it, and no other node lists [m]. *)
Theorem add_reparents h (P m : ref) :
  tree_node_inv h ->
  exists h',
    add h P m = Ok h' /\
    parent (h' m) = Some P /\
    (exists l, children (h' P) = l ++ [m] /\ ~ In m l) /\
    (forall n, n <> P -> ~ In m (children (h' n))).
Proof.
  intros Hinv. unfold add.
  assert (HW : exists h', World_add h P m = Ok h' /\
    parent (h' m) = Some P /\
    (exists l, children (h' P) = l ++ [m] /\ ~ In m l) /\
    (forall n, n <> P -> ~ In m (children (h' n)))).
  { unfold World_add. destruct (isinstance h m Class.Menu).
    - apply Morph_add_reparents. now apply tree_node_inv_open_menus.
    - now apply Morph_add_reparents. }
  pose proof (Morph_add_reparents P m Hinv) as HM.
  destruct (Class.resolve [Class.Morph; Class.World] (cls (h P))) as [k|];
    [destruct k|]; assumption.
Qed.
End HeapFacts.

(** ** Walks over the tree *)

Section TreeWalks.
Context {N : Type} `{Number N}.
Implicit Types h g : @Heap N.

Lemma same_links_refl h : same_links h h.
Proof. intros r. auto. Qed.

Lemma same_links_trans h g k : same_links h g -> same_links g k -> same_links h k.
Proof.
  intros Hg Hk r. destruct (Hg r) as (a & b & c & d), (Hk r) as (a' & b' & c' & d').
  repeat split; congruence.
Qed.

Lemma same_links_sym h g : same_links h g -> same_links g h.
Proof. intros Hg r. destruct (Hg r) as (a & b & c & d). auto. Qed.

Lemma only_damage_refl h : only_damage h h.
Proof. intros r. exists (broken (h r)). now destruct (h r). Qed.

Lemma only_damage_trans h g k : only_damage h g -> only_damage g k -> only_damage h k.
Proof.
  intros Hg Hk r. destruct (Hg r) as [l El], (Hk r) as [l' El'].
  exists l'. rewrite El', El. reflexivity.
Qed.

Lemma only_damage_links h g : only_damage h g -> same_links h g.
Proof. intros Hg r. destruct (Hg r) as [l ->]. simpl. auto. Qed.

Lemma only_damage_bounds h g r : only_damage h g -> bounds (g r) = bounds (h r).
Proof. intros Hg. destruct (Hg r) as [l ->]. reflexivity. Qed.

Lemma append_broken_damage h w b : only_damage h (append_broken h w b).
Proof.
  intros r. unfold append_broken.
  destruct (upd_cases h w (with_broken (h w) (broken (h w) ++ [b])) r)
    as [[-> ->]|[_ ->]].
  - eexists. reflexivity.
  - apply only_damage_refl.
Qed.

Lemma with_bounds_links h r b : same_links h (upd h r (with_bounds (h r) b)).
Proof.
  intros r'. destruct (upd_cases h r (with_bounds (h r) b) r') as [[-> ->]|[_ ->]];
    simpl; auto.
Qed.

Lemma ancestors_end_links h g r :
  same_links h g -> ancestors_end h r -> ancestors_end g r.
Proof.
  intros Hg Hacc. induction Hacc as [r _ IH].
  constructor. intros p Hp. apply IH.
  unfold is_parent_of in *. destruct (Hg r) as (_ & <- & _). exact Hp.
Qed.

Lemma subtree_ends_links h g r :
  same_links h g -> subtree_ends h r -> subtree_ends g r.
Proof.
  intros Hg Hacc. induction Hacc as [r _ IH].
  constructor. intros c Hc. apply IH.
  unfold is_child_of in *. destruct (Hg r) as (_ & _ & <- & _). exact Hc.
Qed.

Lemma isinstance_links h g r k : same_links h g -> isinstance g r k = isinstance h r k.
Proof. intros Hg. unfold isinstance. now destruct (Hg r) as (-> & _). Qed.

(** [root] ends at a node without parent. *)
Lemma root_returns h r :
  ancestors_end h r ->
  exists w, returns (fun n => root n h r) (Ok w) /\ parent (h w) = None.
Proof.
  intros Hacc. induction Hacc as [r _ IH].
  destruct (parent (h r)) as [p|] eqn:Ep.
  - destruct (IH p Ep) as (w & Hw & Hnone).
    exists w. split; [| exact Hnone].
    apply (returns_step _ (fun n => root n h p)); [| exact Hw].
    intros n. simpl. now rewrite Ep.
  - exists r. split; [| exact Ep].
    apply (returns_step _ (fun _ => Ok r)); [| apply returns_const].
    intros n. simpl. now rewrite Ep.
Qed.

Lemma root_links h g n r : same_links h g -> root n g r = root n h r.
Proof.
  intros Hg. revert r. induction n as [|n IH]; intros r; [reflexivity|].
  simpl. destruct (Hg r) as (_ & -> & _).
  destruct (parent (h r)); auto.
Qed.

(** The loop of [full_bounds] returns when each child's call does. *)
Lemma merge_all_returns (F : nat -> ref -> result (Rectangle N)) cs :
  (forall c, In c cs -> exists b, returns (fun n => F n c) (Ok b)) ->
  forall acc, exists b, returns (fun n => merge_all (F n) cs acc) (Ok b).
Proof.
  induction cs as [|c cs IH]; intros Hcs acc.
  - exists acc. returns_now.
  - destruct (Hcs c (or_introl eq_refl)) as [b Hb].
    destruct (IH (fun c' Hc' => Hcs c' (or_intror Hc')) (merge acc b)) as [b' Hb'].
    exists b'. simpl.
    apply (returns_bind (fun n => F n c)
             (fun n b0 => merge_all (F n) cs (merge acc b0)) Hb Hb').
Qed.

Lemma full_bounds_returns h r :
  subtree_ends h r ->
  exists b, returns (fun n => full_bounds n h r) (Ok b).
Proof.
  intros Hacc. induction Hacc as [r _ IH].
  destruct (merge_all_returns (fun n c => full_bounds n h c) (children (h r)) IH
              (bounds (h r))) as [b Hb].
  destruct (Class.resolve [Class.Morph; Class.Frame] (cls (h r))) as [k|] eqn:Ek.
  - destruct (Class.eq_dec k Class.Frame) as [->|Dk].
    + exists (match get_shadow h r with
              | Some shadow => merge (bounds (h r)) (bounds (h shadow))
              | None => bounds (h r)
              end).
      exists 1. intros n Hn. destruct n as [|n]; [lia|].
      simpl. rewrite Ek. now destruct (get_shadow h r).
    + exists b. refine (returns_step _ _ _ Hb).
      intros n. simpl. rewrite Ek. destruct k; try reflexivity. congruence.
  - exists b. refine (returns_step _ _ _ Hb).
    intros n. simpl. rewrite Ek. reflexivity.
Qed.

(** [changed], whichever class runs it, returns and only records
    damage. *)
Lemma changed_returns h r :
  ancestors_end h r -> subtree_ends h r ->
  exists g, returns (fun n => changed n h r) (Ok g) /\ only_damage h g.
Proof.
  intros Hup Hdown.
  destruct (root_returns Hup) as (w & Hw & _).
  destruct (full_bounds_returns Hdown) as (b & Hb).
  assert (HM : exists g,
    returns (fun n => w0 <- root n h r ;;
                      if isinstance h w0 Class.World
                      then Ok (append_broken h w0 (bounds (h r))) else Ok h) (Ok g)
    /\ only_damage h g).
  { destruct (isinstance h w Class.World) eqn:Ew.
    - exists (append_broken h w (bounds (h r))). split.
      + apply (returns_bind (fun n => root n h r)
                 (fun _ w0 => if isinstance h w0 Class.World
                              then Ok (append_broken h w0 (bounds (h r))) else Ok h) Hw).
        rewrite Ew. apply returns_const.
      + apply append_broken_damage.
    - exists h. split.
      + apply (returns_bind (fun n => root n h r)
                 (fun _ w0 => if isinstance h w0 Class.World
                              then Ok (append_broken h w0 (bounds (h r))) else Ok h) Hw).
        rewrite Ew. apply returns_const.
      + apply only_damage_refl. }
  unfold changed.
  destruct (Class.resolve [Class.Morph; Class.Hand] (cls (h r))) as [k|];
    [| exact HM].
  destruct (Class.eq_dec k Class.Hand) as [->|Dk];
    [| destruct k; try exact HM; congruence].
  destruct (_world (h r)) as [w'|].
  - destruct (point_ne (extent b) (mkPoint (lit 0) (lit 0))) eqn:Ene.
    + exists (append_broken h w' b). split; [| apply append_broken_damage].
      apply (returns_bind (fun n => full_bounds n h r)
               (fun n b0 => if point_ne (extent b0) (mkPoint (lit 0) (lit 0))
                            then b' <- full_bounds n h r ;; Ok (append_broken h w' b')
                            else Ok h) Hb).
      rewrite Ene.
      apply (returns_bind (fun n => full_bounds n h r)
               (fun _ b' => Ok (append_broken h w' b')) Hb).
      apply returns_const.
    + exists h. split; [| apply only_damage_refl].
      apply (returns_bind (fun n => full_bounds n h r)
               (fun n b0 => if point_ne (extent b0) (mkPoint (lit 0) (lit 0))
                            then b' <- full_bounds n h r ;; Ok (append_broken h w' b')
                            else Ok h) Hb).
      rewrite Ene. apply returns_const.
  - exists h. split; [apply returns_const | apply only_damage_refl].
Qed.
End TreeWalks.

(** ** Damage reporting and resizing *)

Section Damage.
Context {N : Type} `{Number N}.
Implicit Types h g : @Heap N.

Lemma not_Hand_runs_Morph_changed c :
  Class.isinstance c Class.Hand = false ->
  Class.resolve [Class.Morph; Class.Hand] c <> Some Class.Hand.
Proof. destruct c; vm_compute; congruence. Qed.

Lemma changed_of_Morph h m n :
  isinstance h m Class.Hand = false ->
  changed n h m =
    (w <- root n h m ;;
     if isinstance h w Class.World then Ok (append_broken h w (bounds (h m)))
     else Ok h).
Proof.
  intros Hm. apply not_Hand_runs_Morph_changed in Hm.
  unfold changed.
  destruct (Class.resolve [Class.Morph; Class.Hand] (cls (h m))) as [k|];
    [destruct k|]; try reflexivity; congruence.
Qed.

(** C5 (as amended). For every morph whose ancestor chain and subtree
    are finite, the walk to the root returns some [w].  [changed], for
    every morph that is not the Hand, and [full_changed], for every
    morph, append the bounds (the full bounds) to [w.broken] when [w]
    is a World and return the heap as it was when it is not; appending
    leaves every other object alone and changes nothing but the
    [broken] list of [w]. *)
Theorem damage_goes_to_the_world_root h m :
  ancestors_end h m -> subtree_ends h m ->
  exists w fb,
    returns (fun n => root n h m) (Ok w) /\
    returns (fun n => full_bounds n h m) (Ok fb) /\
    (isinstance h m Class.Hand = false ->
     returns (fun n => changed n h m)
       (Ok (if isinstance h w Class.World
            then append_broken h w (bounds (h m)) else h))) /\
    returns (fun n => full_changed n h m)
      (Ok (if isinstance h w Class.World then append_broken h w fb else h)) /\
    (forall b r, r <> w -> append_broken h w b r = h r) /\
    (forall b, append_broken h w b w = with_broken (h w) (broken (h w) ++ [b])).
Proof.
  intros Hup Hdown.
  destruct (root_returns Hup) as (w & Hw & _).
  destruct (full_bounds_returns Hdown) as (fb & Hfb).
  exists w, fb. split; [exact Hw|]. split; [exact Hfb|]. split; [| split; [| split]].
  - intros Hm.
    apply (returns_ext _ _ (fun n => changed_of_Morph h m n Hm)).
    apply (returns_bind (fun n => root n h m)
             (fun _ w0 => if isinstance h w0 Class.World
                          then Ok (append_broken h w0 (bounds (h m))) else Ok h) Hw).
    destruct (isinstance h w Class.World); apply returns_const.
  - unfold full_changed.
    apply (returns_bind (fun n => root n h m)
             (fun n w0 => if isinstance h w0 Class.World
                          then b <- full_bounds n h m ;; Ok (append_broken h w0 b)
                          else Ok h) Hw).
    destruct (isinstance h w Class.World); [| apply returns_const].
    apply (returns_bind (fun n => full_bounds n h m)
             (fun _ b => Ok (append_broken h w b)) Hfb).
    apply returns_const.
  - intros b r Hr. unfold append_broken. now apply upd_other.
  - intros b. unfold append_broken. apply upd_same.
Qed.



End Damage.


(** ** Moving a subtree *)

Section MoveBy.
Context {N : Type} `{Number N}.
Implicit Types h g : @Heap N.

Lemma moved_damage_l l d h g k : only_damage h g -> moved l d g k -> moved l d h k.
Proof.
  intros D [L B]. split.
  - apply same_links_trans with g; [now apply only_damage_links | exact L].
  - intros r. rewrite B. now rewrite (only_damage_bounds r D).
Qed.

Lemma moved_damage_r l d h g k : moved l d h g -> only_damage g k -> moved l d h k.
Proof.
  intros [L B] D. split.
  - apply same_links_trans with g; [exact L | now apply only_damage_links].
  - intros r. rewrite (only_damage_bounds r D). apply B.
Qed.

Lemma moved_nil d h : moved [] d h h.
Proof. split; [apply same_links_refl | reflexivity]. Qed.

Lemma moved_app l1 l2 d h g k :
  moved l1 d h g -> moved l2 d g k -> moved (l1 ++ l2) d h k.
Proof.
  intros [L1 B1] [L2 B2]. split; [now apply same_links_trans with g|].
  intros r. rewrite B2, B1, count_occ_app. unfold translate_times.
  rewrite (Nat.add_comm (count_occ Nat.eq_dec l1 r)). now rewrite Nat.iter_add.
Qed.

Lemma moved_one d h m :
  moved [m] d h (upd h m (with_bounds (h m) (translate_by (bounds (h m)) d))).
Proof.
  split; [apply with_bounds_links|].
  intros r. simpl.
  destruct (upd_cases h m (with_bounds (h m) (translate_by (bounds (h m)) d)) r)
    as [[-> ->]|[D ->]].
  - destruct (Nat.eq_dec m m); [reflexivity | congruence].
  - destruct (Nat.eq_dec m r); [congruence | reflexivity].
Qed.

Section Loop.
Variable h : @Heap N.
Hypothesis Hup : forall r, ancestors_end h r.

(** The loops of [all_children] and [move_by] over the same children. *)
Lemma for_each_moves cs :
  (forall c, In c cs ->
     exists lc, returns (fun n => all_children n h c) (Ok lc) /\
       forall d g, same_links h g ->
         exists g', returns (fun n => move_by n g c d) (Ok g') /\ moved lc d g g') ->
  exists ls,
    (forall acc, returns (fun n => extend_all (all_children n h) cs acc) (Ok (acc ++ ls))) /\
    forall d g, same_links h g ->
      exists g', returns (fun n => for_each (fun g0 c => move_by n g0 c d) cs g) (Ok g')
                 /\ moved ls d g g'.
Proof.
  induction cs as [|c cs IH]; intros Hcs.
  - exists []. split.
    + intros acc. rewrite app_nil_r. returns_now.
    + intros d g _. exists g. split; [returns_now | apply moved_nil].
  - destruct (Hcs c (or_introl eq_refl)) as (lc & Hlc & Hmc).
    destruct (IH (fun c' Hc' => Hcs c' (or_intror Hc'))) as (ls & Hls & Hms).
    exists (lc ++ ls). split.
    + intros acc. simpl.
      apply (returns_bind (fun n => all_children n h c)
               (fun n l => extend_all (all_children n h) cs (acc ++ l)) Hlc).
      rewrite app_assoc. apply Hls.
    + intros d g Lg.
      destruct (Hmc d g Lg) as (g1 & Hg1 & M1).
      destruct (Hms d g1 (same_links_trans Lg (proj1 M1))) as (g2 & Hg2 & M2).
      exists g2. split; [| now apply moved_app with g1].
      simpl.
      apply (returns_bind (fun n => move_by n g c d)
               (fun n g1' => for_each (fun g0 c0 => move_by n g0 c0 d) cs g1') Hg1 Hg2).
Qed.

Lemma move_by_moves m :
  subtree_ends h m ->
  exists l, returns (fun n => all_children n h m) (Ok l) /\
    forall d g, same_links h g ->
      exists g', returns (fun n => move_by n g m d) (Ok g') /\ moved l d g g'.
Proof.
  intros Hdown. induction Hdown as [m Hacc IH].
  destruct (for_each_moves (children (h m)) IH) as (ls & Hls & Hms).
  exists ([m] ++ ls). split.
  - refine (returns_step _ _ _ (Hls [m])). reflexivity.
  - intros d g Lg.
    assert (Hdown : subtree_ends h m) by (constructor; exact Hacc).
    destruct (changed_returns (ancestors_end_links Lg (Hup m))
                (subtree_ends_links Lg Hdown)) as (h1 & H1 & D1).
    set (h2 := upd h1 m (with_bounds (h1 m) (translate_by (bounds (h1 m)) d))).
    assert (M2 : moved [m] d g h2) by (apply moved_damage_l with h1; [exact D1 | apply moved_one]).
    assert (L2 : same_links h h2) by (apply same_links_trans with g; [exact Lg | apply M2]).
    destruct (Hms d h2 L2) as (h3 & H3 & M3).
    assert (L3 : same_links h h3) by (apply same_links_trans with h2; [exact L2 | apply M3]).
    destruct (changed_returns (ancestors_end_links L3 (Hup m))
                (subtree_ends_links L3 Hdown)) as (h4 & H4 & D4).
    exists h4. split.
    + apply (returns_step _
               (fun n => h1' <- changed (S n) g m ;;
                  let h2' := upd h1' m (with_bounds (h1' m)
                               (translate_by (bounds (h1' m)) d)) in
                  h3' <- for_each (fun g0 c => move_by n g0 c d) (children (h2' m)) h2' ;;
                  changed (S n) h3' m)); [reflexivity|].
      apply (returns_bind (fun n => changed (S n) g m)
               (fun n h1' =>
                  let h2' := upd h1' m (with_bounds (h1' m)
                               (translate_by (bounds (h1' m)) d)) in
                  h3' <- for_each (fun g0 c => move_by n g0 c d) (children (h2' m)) h2' ;;
                  changed (S n) h3' m)
               (returns_shift _ H1)).
      cbv zeta. fold h2.
      replace (children (h2 m)) with (children (h m))
        by (symmetry; apply (L2 m)).
      apply (returns_bind
               (fun n => for_each (fun g0 c => move_by n g0 c d) (children (h m)) h2)
               (fun n h3' => changed (S n) h3' m) H3).
      apply (returns_shift _ H4).
    + apply moved_damage_r with h3; [| exact D4].
      now apply moved_app with h2.
Qed.
End Loop.
End MoveBy.

Lemma translate_times_int (k : nat) (d : Point Z) (b : Rectangle Z) :
  translate_times k d b =
    mkRectangle
      (mkPoint (x (origin b) + Z.of_nat k * x d)%Z (y (origin b) + Z.of_nat k * y d)%Z)
      (mkPoint (x (corner b) + Z.of_nat k * x d)%Z (y (corner b) + Z.of_nat k * y d)%Z).
Proof.
  unfold translate_times. induction k as [|k IH].
  - simpl. destruct b as [[ox oy] [cx cy]]; simpl. f_equal; f_equal; lia.
  - rewrite Nat.iter_succ, IH. unfold translate_by, point_add; simpl num_add; simpl x; simpl y;
      cbn [origin corner x y].
    f_equal; f_equal; lia.
Qed.

(** C6 (as amended). On integer coordinates, for every morph of a tree
    configuration and every delta [d], [move_by(d)] and then
    [move_by(-d)] both return, and afterwards every morph of the heap,
    the moved one and its descendants included, has the bounds it had
    at the start. *)
Theorem move_by_there_and_back (h : @Heap Z) (m : ref) (d : Point Z) :
  (forall r, ancestors_end h r) -> subtree_ends h m ->
  exists h1 h2,
    returns (fun n => move_by n h m d) (Ok h1) /\
    returns (fun n => move_by n h1 m (point_neg d)) (Ok h2) /\
    forall r, bounds (h2 r) = bounds (h r).
Proof.
  intros Hup Hdown.
  destruct (move_by_moves Hup Hdown) as (l & _ & Hmove).
  destruct (Hmove d h (same_links_refl h)) as (h1 & H1 & L1 & B1).
  destruct (Hmove (point_neg d) h1 L1) as (h2 & H2 & L2 & B2).
  exists h1, h2. split; [exact H1|]. split; [exact H2|].
  intros r. rewrite B2, B1, !translate_times_int. simpl.
  destruct (bounds (h r)) as [[ox oy] [cx cy]]; simpl. f_equal; f_equal; lia.
Qed.

(** ** Hit-testing *)

Section HitTesting.
Context {N : Type} `{Number N}.
Implicit Types h g : @Heap N.

Lemma descends_trans h a b c : descends h a b -> descends h b c -> descends h a c.
Proof.
  intros Hab Hbc. induction Hbc as [|x c _ IH Hin]; [exact Hab|].
  now apply descends_child with x.
Qed.

Lemma descends_subtree_ends h a x :
  descends h a x -> subtree_ends h a -> subtree_ends h x.
Proof.
  intros Hd Ha. induction Hd as [|x c _ IH Hin]; [exact Ha|].
  exact (Acc_inv IH Hin).
Qed.

(** The loop of [all_children]. *)
Lemma extend_all_returns h cs :
  (forall c, In c cs ->
     exists lc, returns (fun n => all_children n h c) (Ok (c :: lc)) /\
                forall x, In x lc -> descends h c x) ->
  exists ls,
    (forall acc, returns (fun n => extend_all (all_children n h) cs acc) (Ok (acc ++ ls))) /\
    (forall x, In x ls -> exists c, In c cs /\ descends h c x).
Proof.
  induction cs as [|c cs IH]; intros Hcs.
  - exists []. split.
    + intros acc. rewrite app_nil_r. returns_now.
    + intros x [].
  - destruct (Hcs c (or_introl eq_refl)) as (lc & Hlc & Hdc).
    destruct (IH (fun c' Hc' => Hcs c' (or_intror Hc'))) as (ls & Hls & Hds).
    exists ((c :: lc) ++ ls). split.
    + intros acc. simpl extend_all.
      apply (returns_bind (fun n => all_children n h c)
               (fun n l => extend_all (all_children n h) cs (acc ++ l)) Hlc).
      rewrite app_assoc. apply Hls.
    + intros x Hx. apply in_app_or in Hx. destruct Hx as [Hx|Hx].
      * exists c. split; [now left|].
        destruct Hx as [<-|Hx]; [apply descends_self | now apply Hdc].
      * destruct (Hds x Hx) as (c' & Hc' & Hd). exists c'. split; [now right | exact Hd].
Qed.

(** [all_children] starts with the node and goes on with descendants. *)
Lemma all_children_returns h m :
  subtree_ends h m ->
  exists rest, returns (fun n => all_children n h m) (Ok (m :: rest)) /\
               forall x, In x rest -> descends h m x.
Proof.
  intros Hdown. induction Hdown as [m _ IH].
  destruct (extend_all_returns (children (h m)) IH) as (ls & Hls & Hds).
  exists ls. split.
  - refine (returns_step _ _ _ (Hls [m])). reflexivity.
  - intros x Hx. destruct (Hds x Hx) as (c & Hc & Hd).
    apply descends_trans with c; [| exact Hd].
    apply descends_child with m; [apply descends_self | exact Hc].
Qed.




End HitTesting.

(** ** The drop target *)

Section DropTarget.
Context {N : Type} `{Number N}.
Implicit Types h g : @Heap N.

Lemma first_hit_returns h p ms :
  (forall m, In m ms -> subtree_ends h m) ->
  exists r, returns (fun n => first_hit n h p ms) (Ok r) /\
    match r with
    | Some x => In x ms
    | None =>
        forall m fb, In m ms -> returns (fun n => full_bounds n h m) (Ok fb) ->
          contains_point fb p && negb (isinstance h m Class.Shadow) = false
    end.
Proof.
  induction ms as [|m ms IH]; intros Hms.
  - exists None. split; [returns_now | intros m fb []].
  - destruct (full_bounds_returns (Hms m (or_introl eq_refl))) as (fb & Hfb).
    destruct (IH (fun m' Hm' => Hms m' (or_intror Hm'))) as (r & Hr & Hspec).
    destruct (contains_point fb p && negb (isinstance h m Class.Shadow)) eqn:Ehit.
    + exists (Some m). split; [| now left].
      simpl.
      apply (returns_bind (fun n => full_bounds n h m)
               (fun n fb0 =>
                  if contains_point fb0 p && negb (isinstance h m Class.Shadow)
                  then Ok (Some m) else first_hit n h p ms) Hfb).
      rewrite Ehit. apply returns_const.
    + exists r. split.
      * simpl.
        apply (returns_bind (fun n => full_bounds n h m)
                 (fun n fb0 =>
                    if contains_point fb0 p && negb (isinstance h m Class.Shadow)
                    then Ok (Some m) else first_hit n h p ms) Hfb).
        rewrite Ehit. exact Hr.
      * destruct r as [x|]; [now right|].
        intros m' fb' [<-|Hm'] Hfb'.
        -- pose proof (returns_inj _ Hfb Hfb') as E. injection E as <-. exact Ehit.
        -- now apply Hspec.
Qed.

(** [m.morph_at(p)] finds a morph below [m] when [m] itself is a hit. *)
Lemma morph_at_hits h m p fb :
  subtree_ends h m ->
  returns (fun n => full_bounds n h m) (Ok fb) ->
  contains_point fb p && negb (isinstance h m Class.Shadow) = true ->
  exists x, returns (fun n => morph_at n h m p) (Ok (Some x)) /\ descends h m x.
Proof.
  intros Hdown Hfb Hhit.
  destruct (all_children_returns Hdown) as (rest & Hall & Hdesc).
  assert (Hin : forall x, In x (rev (m :: rest)) -> descends h m x).
  { intros x Hx. apply in_rev in Hx.
    destruct Hx as [<-|Hx]; [apply descends_self | now apply Hdesc]. }
  destruct (@first_hit_returns h p (rev (m :: rest))
              (fun x Hx => descends_subtree_ends (Hin x Hx) Hdown))
    as (r & Hr & Hspec).
  destruct r as [x|].
  - exists x. split; [| now apply Hin].
    unfold morph_at.
    apply (returns_bind (fun n => all_children n h m)
             (fun n morphs => first_hit n h p (rev morphs)) Hall Hr).
  - exfalso.
    assert (Hm : In m (rev (m :: rest))) by (apply -> in_rev; now left).
    rewrite (Hspec m fb Hm Hfb) in Hhit. discriminate.
Qed.

(** The loop of [morph_at_pointer] ends on the world or below it. *)
Lemma hit_top_returns h p w ms :
  subtree_ends h w -> (forall c, In c ms -> In c (children (h w))) ->
  exists x, returns (fun n => hit_top n h p w ms) (Ok (Some x)) /\ descends h w x.
Proof.
  intros Hdown. induction ms as [|m ms IH]; intros Hms.
  - exists w. split; [returns_now | apply descends_self].
  - assert (Hm : descends h w m)
      by (apply descends_child with w; [apply descends_self | apply Hms; now left]).
    pose proof (descends_subtree_ends Hm Hdown) as Hdm.
    destruct (full_bounds_returns Hdm) as (fb & Hfb).
    destruct (contains_point fb p && negb (isinstance h m Class.Shadow)) eqn:Ehit;
      [destruct (is_visible (h m)) eqn:Evis|].
    + destruct (@morph_at_hits h m p fb Hdm Hfb Ehit) as (x & Hx & Hd).
      exists x. split; [| now apply descends_trans with m].
      simpl.
      apply (returns_bind (fun n => full_bounds n h m)
               (fun n fb0 =>
                  if contains_point fb0 p && negb (isinstance h m Class.Shadow)
                     && is_visible (h m)
                  then morph_at n h m p else hit_top n h p w ms) Hfb).
      rewrite Ehit, Evis. exact Hx.
    + destruct (IH (fun c Hc => Hms c (or_intror Hc))) as (x & Hx & Hd).
      exists x. split; [| exact Hd].
      simpl.
      apply (returns_bind (fun n => full_bounds n h m)
               (fun n fb0 =>
                  if contains_point fb0 p && negb (isinstance h m Class.Shadow)
                     && is_visible (h m)
                  then morph_at n h m p else hit_top n h p w ms) Hfb).
      rewrite Ehit, Evis. exact Hx.
    + destruct (IH (fun c Hc => Hms c (or_intror Hc))) as (x & Hx & Hd).
      exists x. split; [| exact Hd].
      simpl.
      apply (returns_bind (fun n => full_bounds n h m)
               (fun n fb0 =>
                  if contains_point fb0 p && negb (isinstance h m Class.Shadow)
                     && is_visible (h m)
                  then morph_at n h m p else hit_top n h p w ms) Hfb).
      rewrite Ehit. exact Hx.
Qed.

Lemma morph_at_pointer_returns h hand w :
  _world (h hand) = Some w -> subtree_ends h w ->
  exists x, returns (fun n => morph_at_pointer n h hand) (Ok (Some x)) /\ descends h w x.
Proof.
  intros Ew Hdown. unfold morph_at_pointer. rewrite Ew.
  apply hit_top_returns; [exact Hdown|].
  intros c Hc. now apply in_rev.
Qed.

Lemma World_wants_drop c :
  Class.isinstance c Class.World = true ->
  match Class.resolve [Class.Morph; Class.Frame; Class.World] c with
  | Some Class.Frame | Some Class.World => true
  | _ => false
  end = true.
Proof. destruct c; vm_compute; congruence. Qed.

(** The walk from a morph below the world stops at the world at the
    latest. *)
Lemma drop_walk_returns h w x m :
  (forall n c, In c (children (h n)) -> parent (h c) = Some n) ->
  wants_drop_of h w m = true ->
  descends h w x ->
  exists t, returns (fun n => drop_walk n h (Some x) m) (Ok t) /\
            wants_drop_of h t m = true.
Proof.
  intros Hlink Hw Hd. induction Hd as [|x c _ IH Hin].
  - exists w. split; [| exact Hw].
    exists 1. intros n Hn. destruct n as [|n]; [lia|]. simpl. now rewrite Hw.
  - destruct (wants_drop_of h c m) eqn:Ec.
    + exists c. split; [| exact Ec].
      exists 1. intros n Hn. destruct n as [|n]; [lia|]. simpl. now rewrite Ec.
    + destruct IH as (t & Ht & Hwt). exists t. split; [| exact Hwt].
      refine (returns_step _ _ _ Ht).
      intros n. simpl. rewrite Ec. now rewrite (Hlink x c Hin).
Qed.

(** C3. In a tree configuration whose world has a finite subtree, the
    search for a drop target returns, whatever morph is dragged, and
    the morph it returns accepts the drop. *)
Theorem drop_target_found h (hand w m : ref) :
  _world (h hand) = Some w ->
  isinstance h w Class.World = true ->
  tree_node_inv h ->
  subtree_ends h w ->
  exists t,
    returns (fun n => drop_target_for n h hand m) (Ok t) /\
    wants_drop_of h t m = true.
Proof.
  intros Ew HW [Hlink _] Hdown.
  destruct (@morph_at_pointer_returns h hand w Ew Hdown) as (x & Hx & Hd).
  assert (Hw : wants_drop_of h w m = true)
    by (unfold wants_drop_of; now apply World_wants_drop).
  destruct (@drop_walk_returns h w x m (fun n c Hc => proj2 (Hlink n c) Hc) Hw Hd)
    as (t & Ht & Hwt).
  exists t. split; [| exact Hwt].
  unfold drop_target_for.
  apply (returns_bind (fun n => morph_at_pointer n h hand)
           (fun n target => drop_walk n h target m) Hx Ht).
Qed.
End DropTarget.

(** ** Clicks *)

Section Clicks.
Context {N : Type} `{Number N}.
Implicit Types h g s : @Heap N.
Variable context_menu_popup : @Heap N -> ref -> ref -> result (@Heap N).





End Clicks.

(** ** The desk is a tree configuration *)

Section DeskFacts.
Context {N : Type} `{Number N}.

Lemma ancestors_end_by_depth (h : @Heap N) (depth : ref -> nat) :
  (forall c p, parent (h c) = Some p -> depth p < depth c) ->
  forall r, ancestors_end h r.
Proof.
  intros Hd. unfold ancestors_end.
  apply (Wf_nat.well_founded_lt_compat _ depth). intros p c Hp. now apply Hd.
Qed.

Lemma subtree_ends_by_height (h : @Heap N) (height : ref -> nat) :
  (forall c p, In c (children (h p)) -> height c < height p) ->
  forall r, subtree_ends h r.
Proof.
  intros Hh. unfold subtree_ends.
  apply (Wf_nat.well_founded_lt_compat _ height). intros c p Hc. now apply Hh.
Qed.

Lemma desk_links : tree_node_inv (@desk N _).
Proof.
  split.
  - intros n c. do 8 (try (destruct c as [|c])); do 8 (try (destruct n as [|n])); simpl;
      (split; intros Hx; try discriminate; try reflexivity;
       repeat (destruct Hx as [Hx|Hx]; try discriminate);
       try contradiction; try (injection Hx as Hx; discriminate);
       try (now left); try (right; now left); try (right; right; now left);
       try (right; right; right; now left)).
  - intros n. do 8 (try (destruct n as [|n])); simpl; repeat constructor; simpl; intuition discriminate.
Qed.

Lemma desk_ancestors_end r : ancestors_end (@desk N _) r.
Proof.
  revert r. apply (ancestors_end_by_depth _ desk_depth).
  intros c p. do 8 (try (destruct c as [|c])); simpl; intros E; try discriminate;
    injection E as <-; simpl; lia.
Qed.

Lemma desk_subtree_ends r : subtree_ends (@desk N _) r.
Proof.
  revert r. apply (subtree_ends_by_height _ desk_height).
  intros c p. do 8 (try (destruct p as [|p])); simpl; intros Hc;
    repeat (destruct Hc as [<-|Hc]; [simpl; lia|]); contradiction.
Qed.

Lemma dragging_links : tree_node_inv (@dragging N _).
Proof.
  split.
  - intros n c. do 8 (try (destruct c as [|c])); do 8 (try (destruct n as [|n])); simpl;
      (split; intros Hx; try discriminate; try reflexivity;
       repeat (destruct Hx as [Hx|Hx]; try discriminate);
       try contradiction; try (injection Hx as Hx; discriminate);
       try (now left); try (right; now left); try (right; right; now left);
       try (right; right; right; now left)).
  - intros n. do 8 (try (destruct n as [|n])); simpl; repeat constructor; simpl; intuition discriminate.
Qed.

Lemma dragging_subtree_ends r : subtree_ends (@dragging N _) r.
Proof.
  revert r. apply (subtree_ends_by_height _ dragging_height).
  intros c p. do 8 (try (destruct p as [|p])); simpl; intros Hc;
    repeat (destruct Hc as [<-|Hc]; [simpl; lia|]); contradiction.
Qed.
End DeskFacts.

(** ** Runs on the desk *)

(** C1, on the desk: morph [2] is added to morph [3]. *)
Lemma add_reparents_on_the_desk :
  exists h',
    add (@desk Z _) 3 2 = Ok h' /\
    parent (h' 2) = Some 3 /\
    (exists l, children (h' 3) = l ++ [2] /\ ~ In 2 l) /\
    (forall n, n <> 3 -> ~ In 2 (children (h' n))).
Proof. apply add_reparents. exact desk_links. Defined.



(** C3, on the desk while [6] is dragged. *)
Lemma drop_target_found_while_dragging :
  exists t,
    returns (fun n => drop_target_for n (@dragging Z _) 1 6) (Ok t) /\
    wants_drop_of (@dragging Z _) t 6 = true.
Proof.
  apply drop_target_found with (w := 0).
  - reflexivity.
  - reflexivity.
  - exact dragging_links.
  - exact (dragging_subtree_ends 0).
Defined.



(** C5 fails as stated.  While the hand drags [6], the hand is its own
    root, which is no World, and the world has no damage recorded; yet
    [changed] on the hand appends the hand's full bounds to the
    world's [broken] list. *)
Lemma hand_changed_reports_without_world_root :
  root 4 (@dragging Z _) 1 = Ok 1 /\
  isinstance (@dragging Z _) 1 Class.World = false /\
  broken (@dragging Z _ 0) = [] /\
  damage_of_changed 4 (@dragging Z _) 1 0 = Some [rect 200 100 250 140].
Proof. repeat split; reflexivity. Qed.

(** C5 as amended, on the desk: damage reported by morph [2]. *)
Lemma damage_of_a_morph_on_the_desk :
  exists w fb,
    returns (fun n => root n (@desk Z _) 2) (Ok w) /\
    returns (fun n => full_bounds n (@desk Z _) 2) (Ok fb) /\
    (isinstance (@desk Z _) 2 Class.Hand = false ->
     returns (fun n => changed n (@desk Z _) 2)
       (Ok (if isinstance (@desk Z _) w Class.World
            then append_broken desk w (bounds (@desk Z _ 2)) else desk))) /\
    returns (fun n => full_changed n (@desk Z _) 2)
      (Ok (if isinstance (@desk Z _) w Class.World
           then append_broken desk w fb else desk)) /\
    (forall b r, r <> w -> append_broken (@desk Z _) w b r = desk r) /\
    (forall b, append_broken (@desk Z _) w b w
               = with_broken (desk w) (broken (@desk Z _ w) ++ [b])).
Proof.
  apply damage_goes_to_the_world_root.
  - exact (desk_ancestors_end 2).
  - exact (desk_subtree_ends 2).
Defined.

(** C6 fails as stated.  A fresh morph with the bounds (0,0)-(50,40)
    as floats, moved by the finite delta (1e17, 0) and then by its
    negation, ends with the corner (48, 40): 50 + 1e17 is rounded to
    the nearest float, which is 1e17 + 48. *)
Lemma move_by_rounds_on_floats :
  bounds (@loose spec_float _ 0) = rect 0 0 50 40 /\
  there_and_back 3 (@loose spec_float _) 0 (mkPoint (lit (10 ^ 17)) (lit 0))
    = Some (rect 0 0 48 40) /\
  rectangle_eq (rect 0 0 48 40 : Rectangle spec_float) (rect 0 0 50 40) = false.
Proof. repeat split; vm_compute; reflexivity. Qed.

(** C6 as amended, on the desk: the world and all its morphs moved by
    (10,0) and back. *)
Lemma move_by_there_and_back_on_the_desk :
  exists h1 h2,
    returns (fun n => move_by n (@desk Z _) 0 (mkPoint 10 0)%Z) (Ok h1) /\
    returns (fun n => move_by n h1 0 (point_neg (mkPoint 10 0)%Z)) (Ok h2) /\
    forall r, bounds (h2 r) = bounds (@desk Z _ r).
Proof.
  apply move_by_there_and_back.
  - exact desk_ancestors_end.
  - exact (desk_subtree_ends 0).
Defined.


(** ** More properties of the geometry *)

Ltac int_geometry :=
  unfold contains_point, contains_rectangle, intersects, intersect, merge,
    translate_by, inset_by, expand_by, extent, point_plus, point_minus,
    point_add, point_sub, point_neg, point_max, point_min, point_le, point_lt,
    point_gt, point_ge, point_eq, py_max, py_min, num_gt, num_ge in *;
  cbn [x y origin corner num_add num_sub num_mul num_neg num_eq num_lt num_le
       lit int_Number] in *;
  repeat match goal with
         | |- context [Z.ltb ?a ?b] => destruct (Z.ltb_spec a b)
         | |- context [Z.leb ?a ?b] => destruct (Z.leb_spec a b)
         | |- context [Z.eqb ?a ?b] => destruct (Z.eqb_spec a b)
         | H : context [Z.ltb ?a ?b] |- _ => destruct (Z.ltb_spec a b)
         | H : context [Z.leb ?a ?b] |- _ => destruct (Z.leb_spec a b)
         | H : context [Z.eqb ?a ?b] |- _ => destruct (Z.eqb_spec a b)
         end;
  cbn [andb orb negb x y origin corner] in *;
  try discriminate; try reflexivity; try lia.

(** X1. On integer coordinates a point is contained in the
    intersection of two rectangles exactly when both contain it, and
    the merge of two rectangles contains every point of either. *)
Theorem intersect_is_meet_on_points (A B : Rectangle Z) (p : Point Z) :
  contains_point (intersect A B) p = contains_point A p && contains_point B p /\
  (contains_point A p || contains_point B p = true ->
   contains_point (merge A B) p = true).
Proof.
  destruct A as [[ax ay] [bx by_]], B as [[cx cy] [dx dy]], p as [px py].
  split; [| intros Hc]; int_geometry.
Qed.

(** X1, run: the point (5,5) and two overlapping rectangles. *)
Lemma intersect_is_meet_on_points_run :
  contains_point
    (merge (mkRectangle (mkPoint 0 0) (mkPoint 10 10))
           (mkRectangle (mkPoint 20 20) (mkPoint 30 30)))%Z (mkPoint 5 5)%Z = true.
Proof.
  apply (proj2 (intersect_is_meet_on_points
                  (mkRectangle (mkPoint 0 0) (mkPoint 10 10))%Z
                  (mkRectangle (mkPoint 20 20) (mkPoint 30 30))%Z
                  (mkPoint 5 5)%Z)).
  reflexivity.
Defined.

(** X2. On integer coordinates [merge] is the least rectangle that
    contains both and [intersect] the greatest contained in both, in
    the order of [contains_rectangle]. *)
Theorem merge_least_intersect_greatest (A B R : Rectangle Z) :
  contains_rectangle R (merge A B)
    = contains_rectangle R A && contains_rectangle R B /\
  contains_rectangle (intersect A B) R
    = contains_rectangle A R && contains_rectangle B R.
Proof.
  destruct A as [[ax ay] [bx by_]], B as [[cx cy] [dx dy]], R as [[rx ry] [sx sy]].
  split; int_geometry.
Qed.

(** X3. On integer coordinates [intersects] is symmetric and
    inclusive: two rectangles that contain a common point intersect,
    and two rectangles with origin <= corner intersect exactly when
    the origin of their intersection is <= its corner, so rectangles
    that merely touch along an edge intersect as well. *)
Theorem intersects_is_symmetric_and_inclusive (A B : Rectangle Z) :
  intersects A B = intersects B A /\
  (forall p, contains_point A p = true -> contains_point B p = true ->
             intersects A B = true) /\
  (point_le (origin A) (corner A) = true ->
   point_le (origin B) (corner B) = true ->
   intersects A B = point_le (origin (intersect A B)) (corner (intersect A B))).
Proof.
  destruct A as [[ax ay] [bx by_]], B as [[cx cy] [dx dy]].
  split; [| split].
  - int_geometry.
  - intros [px py] HA HB. int_geometry.
  - intros HA HB. int_geometry.
Qed.

(** X3, run: two squares that share the edge x = 10. *)
Lemma touching_rectangles_intersect :
  intersects (mkRectangle (mkPoint 0 0) (mkPoint 10 10))%Z
             (mkRectangle (mkPoint 10 0) (mkPoint 20 10))%Z = true.
Proof.
  rewrite (proj2 (proj2 (intersects_is_symmetric_and_inclusive
             (mkRectangle (mkPoint 0 0) (mkPoint 10 10))%Z
             (mkRectangle (mkPoint 10 0) (mkPoint 20 10))%Z)));
    reflexivity.
Defined.

(** X4. On integer coordinates [translate_by] is rigid: it keeps the
    extent, two translations are the translation by the sum, and the
    translated rectangle contains the translated point exactly when
    the rectangle contained the point. *)
Theorem translate_by_is_rigid (R : Rectangle Z) (d e p : Point Z) :
  extent (translate_by R d) = extent R /\
  translate_by (translate_by R d) e = translate_by R (point_add d e) /\
  contains_point (translate_by R d) (point_add p d) = contains_point R p.
Proof.
  destruct R as [[ax ay] [bx by_]], d as [dx dy], e as [ex ey], p as [px py].
  split; [| split].
  - unfold extent, translate_by, point_sub, point_add; simpl. f_equal; lia.
  - unfold translate_by, point_add; simpl. f_equal; f_equal; lia.
  - int_geometry.
Qed.

(** X5. On integer coordinates [inset_by] undoes [expand_by] of the
    same Point or number, and expanding by a number that is not
    negative gives a rectangle that contains the original. *)
Theorem inset_by_undoes_expand_by (R : Rectangle Z) (o : Operand Z) (k : Z) :
  inset_by (expand_by R o) o = R /\
  expand_by (inset_by R o) o = R /\
  ((0 <= k)%Z -> contains_rectangle (expand_by R (AScalar k)) R = true).
Proof.
  destruct R as [[ax ay] [bx by_]].
  split; [| split].
  - destruct o as [[qx qy]|q]; unfold inset_by, expand_by, point_plus, point_minus;
      simpl; f_equal; f_equal; lia.
  - destruct o as [[qx qy]|q]; unfold inset_by, expand_by, point_plus, point_minus;
      simpl; f_equal; f_equal; lia.
  - intros Hk. int_geometry.
Qed.

(** X5, run: expanding by 3. *)
Lemma expand_by_three_contains :
  contains_rectangle
    (expand_by (mkRectangle (mkPoint 0 0) (mkPoint 10 10))%Z (AScalar 3%Z))
    (mkRectangle (mkPoint 0 0) (mkPoint 10 10))%Z = true.
Proof.
  apply (proj2 (proj2 (inset_by_undoes_expand_by
           (mkRectangle (mkPoint 0 0) (mkPoint 10 10))%Z (AScalar 3%Z) 3%Z))).
  lia.
Defined.

(** X6. On integer coordinates [flip] is an involution: flipping the
    image again about the same center, in the same direction, gives
    the point back; a point on the axis of the flip is its own image;
    a direction other than ['vertical'] and ['horizontal'] gives
    [NotImplemented]. *)
Theorem flip_is_an_involution (p c : Point Z) (direction : string) :
  (forall q, flip p direction c = Some q -> flip q direction c = Some p) /\
  flip (mkPoint (x p) (y c)) "vertical" c = Some (mkPoint (x p) (y c)) /\
  flip (mkPoint (x c) (y p)) "horizontal" c = Some (mkPoint (x c) (y p)) /\
  (direction <> "vertical"%string -> direction <> "horizontal"%string ->
   flip p direction c = None).
Proof.
  destruct p as [px py], c as [cx cy].
  split; [| split; [| split]].
  - intros q. unfold flip.
    destruct (String.eqb direction "vertical");
      [| destruct (String.eqb direction "horizontal")].
    + intros E. injection E as <-. cbn [x y num_sub num_mul lit int_Number].
      do 2 f_equal. lia.
    + intros E. injection E as <-. cbn [x y num_sub num_mul lit int_Number].
      do 2 f_equal. lia.
    + discriminate.
  - unfold flip. cbn [String.eqb Ascii.eqb Bool.eqb x y num_sub num_mul lit int_Number].
    do 2 f_equal. lia.
  - unfold flip. cbn [String.eqb Ascii.eqb Bool.eqb x y num_sub num_mul lit int_Number].
    do 2 f_equal. lia.
  - intros Hv Hh. unfold flip.
    apply String.eqb_neq in Hv, Hh. now rewrite Hv, Hh.
Qed.

(** X6, run: (3,4) flipped vertically about (0,10) and back. *)
Lemma flip_twice_run :
  flip (mkPoint 3 16)%Z "vertical" (mkPoint 0 10)%Z = Some (mkPoint 3 4)%Z.
Proof.
  apply (proj1 (flip_is_an_involution (mkPoint 3 4)%Z (mkPoint 0 10)%Z "vertical")).
  reflexivity.
Defined.

(** X7. The comparisons of Point are componentwise conjunctions and no
    total order: on integers, two points that compare differently in
    [x] and in [y] are related by none of [<], [>], [<=], [>=]; and
    [p <= q] with [q <= p] makes the points equal. *)
Theorem point_order_is_partial (p q : Point Z) :
  ((x p < x q)%Z -> (y q < y p)%Z ->
   point_lt p q = false /\ point_gt p q = false /\
   point_le p q = false /\ point_ge p q = false) /\
  (point_le p q = true -> point_le q p = true -> p = q /\ point_eq p q = true).
Proof.
  destruct p as [px py], q as [qx qy]. split.
  - intros Hx Hy. cbn [x y] in *. repeat split; int_geometry.
  - intros H1 H2.
    assert (px = qx /\ py = qy) as [-> ->] by int_geometry.
    split; [reflexivity|]. int_geometry.
Qed.

(** X7, run: (0,5) and (3,1). *)
Lemma point_order_is_partial_run :
  point_le (mkPoint 0 5)%Z (mkPoint 3 1)%Z = false /\
  point_ge (mkPoint 0 5)%Z (mkPoint 3 1)%Z = false.
Proof.
  destruct (proj1 (point_order_is_partial (mkPoint 0 5)%Z (mkPoint 3 1)%Z))
    as (_ & _ & Hle & Hge); [simpl; lia | simpl; lia |].
  split; assumption.
Defined.

(** ** More properties of the tree *)

Section MoreTreeFacts.
Context {N : Type} `{Number N}.
Implicit Types h g : @Heap N.

Lemma add_child_parents h self node c :
  parent (add_child h self node c) = if Nat.eqb c node then Some self else parent (h c).
Proof.
  unfold add_child.
  destruct (Nat.eqb_spec c node) as [->|D].
  - now rewrite upd_same.
  - rewrite upd_other by assumption.
    destruct (upd_cases h self (with_children (h self) (children (h self) ++ [node])) c)
      as [[-> ->]|[_ ->]]; reflexivity.
Qed.

Lemma remove_child_parents h self node l :
  list_remove node (children (h self)) = Some l ->
  exists h', remove_child h self node = Ok h' /\
    (forall c, parent (h' c) = if Nat.eqb c node then None else parent (h c)) /\
    (forall n, children (h' n) = if Nat.eqb n self then l else children (h n)).
Proof.
  intros E. unfold remove_child. rewrite E.
  eexists. split; [reflexivity|]. split.
  - intros c. destruct (Nat.eqb_spec c node) as [->|D].
    + now rewrite upd_same.
    + rewrite upd_other by assumption.
      destruct (upd_cases h self (with_children (h self) l) c) as [[-> ->]|[_ ->]];
        reflexivity.
  - intros n.
    assert (E1 : children (upd h self (with_children (h self) l) n)
                 = if Nat.eqb n self then l else children (h n)).
    { destruct (Nat.eqb_spec n self) as [->|D].
      - now rewrite upd_same.
      - now rewrite upd_other. }
    destruct (Nat.eq_dec n node) as [En|D].
    + rewrite En, upd_same. simpl. rewrite <- En. exact E1.
    + rewrite upd_other by assumption. exact E1.
Qed.

Lemma add_child_children h self node n :
  children (add_child h self node n)
    = if Nat.eqb n self then children (h self) ++ [node] else children (h n).
Proof.
  destruct (add_child_links h self node) as (_ & Hlast & Hrest).
  destruct (Nat.eqb_spec n self) as [->|D]; [exact Hlast | now apply Hrest].
Qed.

Lemma list_remove_absent (m : ref) (l : list ref) :
  ~ In m l -> list_remove m l = None.
Proof.
  induction l as [|a l IH]; intros Hn; [reflexivity|].
  simpl. destruct (Nat.eqb_spec a m) as [->|D].
  - exfalso. apply Hn. now left.
  - rewrite IH; [reflexivity|]. intros Hi. apply Hn. now right.
Qed.

Lemma list_remove_last (m : ref) (l : list ref) :
  list_remove m (l ++ [m])
    = Some (match list_remove m l with
            | Some l' => l' ++ [m]
            | None => l
            end).
Proof.
  induction l as [|a l IH]; simpl.
  - now rewrite Nat.eqb_refl.
  - destruct (Nat.eqb_spec a m) as [->|D]; [reflexivity|].
    rewrite IH. now destruct (list_remove m l).
Qed.

(** What [remove_child] does to a tree configuration. *)
Lemma remove_child_keeps_inv h p m :
  tree_node_inv h -> In m (children (h p)) ->
  exists h', remove_child h p m = Ok h' /\
    parent (h' m) = None /\
    (forall n, ~ In m (children (h' n))) /\
    (forall c, c <> m -> parent (h' c) = parent (h c)) /\
    (forall n a, a <> m -> (In a (children (h' n)) <-> In a (children (h n)))) /\
    tree_node_inv h'.
Proof.
  intros [Hlink Hnd] Hin.
  destruct (list_remove_spec m Hin (Hnd p)) as (l & El & Hnl & Hiff & Hndl).
  destruct (remove_child_parents h p m El) as (h' & Eh' & Hpar & Hch).
  assert (Hpar' : forall c, c <> m -> parent (h' c) = parent (h c)).
  { intros c D. rewrite Hpar. apply Nat.eqb_neq in D. now rewrite D. }
  assert (Hch' : forall n a, a <> m -> (In a (children (h' n)) <-> In a (children (h n)))).
  { intros n a D. rewrite Hch. destruct (Nat.eqb_spec n p) as [->|_]; [now apply Hiff | tauto]. }
  assert (Hfree : forall n, ~ In m (children (h' n))).
  { intros n. rewrite Hch. destruct (Nat.eqb_spec n p) as [->|D]; [exact Hnl|].
    intros Hi. apply Hlink in Hi. apply Hlink in Hin. congruence. }
  exists h'. split; [exact Eh'|]. split; [| split; [exact Hfree | split; [exact Hpar' |
    split; [exact Hch'|]]]].
  - rewrite Hpar. now rewrite Nat.eqb_refl.
  - split.
    + intros n c. destruct (Nat.eq_dec c m) as [->|D].
      * rewrite Hpar, Nat.eqb_refl. split; [discriminate|]. intros Hi. now apply Hfree in Hi.
      * rewrite (Hpar' c D), (Hch' n c D). apply Hlink.
    + intros n. rewrite Hch. destruct (Nat.eqb_spec n p); [exact Hndl | apply Hnd].
Qed.

(** What [add_child] does to a configuration in which the node has no
    parent. *)
Lemma add_child_keeps_inv h P m :
  tree_node_inv h -> parent (h m) = None -> tree_node_inv (add_child h P m).
Proof.
  intros [Hlink Hnd] Hnone.
  assert (Hfree : forall n, ~ In m (children (h n))).
  { intros n Hi. apply Hlink in Hi. congruence. }
  split.
  - intros n c. rewrite add_child_parents, add_child_children.
    destruct (Nat.eqb_spec c m) as [->|D]; destruct (Nat.eqb_spec n P) as [->|D'].
    + split; [intros _; apply in_or_app; right; now left | reflexivity].
    + split; [intros E; congruence | intros Hi; now apply Hfree in Hi].
    + rewrite Hlink. split; [intros Hi; apply in_or_app; now left|].
      intros Hi. apply in_app_or in Hi. destruct Hi as [Hi|[Hi|[]]]; [exact Hi | congruence].
    + apply Hlink.
  - intros n. rewrite add_child_children.
    destruct (Nat.eqb_spec n P) as [->|D]; [| apply Hnd].
    apply NoDup_app; [apply Hnd | repeat constructor; intros [] |].
    intros a Ha [<-|[]]. now apply Hfree in Ha.
Qed.

Lemma Morph_add_keeps_inv h P m :
  tree_node_inv h -> exists h', Morph_add h P m = Ok h' /\ tree_node_inv h'.
Proof.
  intros Hinv. unfold Morph_add.
  destruct (parent (h m)) as [p|] eqn:Ep.
  - assert (Hin : In m (children (h p))) by now apply (proj1 Hinv).
    destruct (@remove_child_keeps_inv h p m Hinv Hin) as (h1 & -> & Hnone & _ & _ & _ & Hinv1).
    simpl. eexists. split; [reflexivity|]. now apply add_child_keeps_inv.
  - eexists. split; [reflexivity|]. now apply add_child_keeps_inv.
Qed.

(** X8. [add] keeps the invariant of the tree: in a tree
    configuration [P.add(m)] returns a tree configuration, for a
    World [P] as for any other morph. *)
Theorem add_keeps_the_tree_invariant h (P m : ref) :
  tree_node_inv h -> exists h', add h P m = Ok h' /\ tree_node_inv h'.
Proof.
  intros Hinv. unfold add.
  assert (HW : exists h', World_add h P m = Ok h' /\ tree_node_inv h').
  { unfold World_add. destruct (isinstance h m Class.Menu).
    - apply Morph_add_keeps_inv. now apply tree_node_inv_open_menus.
    - now apply Morph_add_keeps_inv. }
  pose proof (@Morph_add_keeps_inv h P m Hinv) as HM.
  destruct (Class.resolve [Class.Morph; Class.World] (cls (h P))) as [k|];
    [destruct k|]; assumption.
Qed.

(** X9. [remove_child] raises [ValueError] for a node that is not
    among the children and leaves the heap as it was; in a tree
    configuration, for a node that is, it returns a tree
    configuration in which the node has no parent and is listed by no
    node, every other link being kept. *)
Theorem remove_child_detaches_or_raises h (self node : ref) :
  (~ In node (children (h self)) -> remove_child h self node = Raise ValueError) /\
  (tree_node_inv h -> In node (children (h self)) ->
   exists h', remove_child h self node = Ok h' /\
     parent (h' node) = None /\
     (forall n, ~ In node (children (h' n))) /\
     (forall c, c <> node -> parent (h' c) = parent (h c)) /\
     (forall n a, a <> node -> (In a (children (h' n)) <-> In a (children (h n)))) /\
     tree_node_inv h').
Proof.
  split.
  - intros Hn. unfold remove_child. now rewrite (list_remove_absent _ _ Hn).
  - apply remove_child_keeps_inv.
Qed.

(** X10. [remove_child] undoes [add_child] for a node that was not
    listed: the children of the node added to are the ones it had and
    the node has no parent.  For a node that was listed already, the
    earlier occurrence is the one removed. *)
Theorem remove_child_undoes_add_child h (self node : ref) :
  exists h',
    remove_child (add_child h self node) self node = Ok h' /\
    parent (h' node) = None /\
    (forall n, n <> self -> children (h' n) = children (h n)) /\
    children (h' self)
      = match list_remove node (children (h self)) with
        | Some l' => l' ++ [node]
        | None => children (h self)
        end /\
    (~ In node (children (h self)) -> children (h' self) = children (h self)).
Proof.
  pose proof (add_child_children h self node self) as Ec.
  rewrite Nat.eqb_refl in Ec.
  pose proof (list_remove_last node (children (h self))) as El.
  rewrite <- Ec in El.
  destruct (remove_child_parents (add_child h self node) self node El)
    as (h' & Eh' & Hpar & Hch).
  exists h'. split; [exact Eh'|]. split; [| split; [| split]].
  - rewrite Hpar. now rewrite Nat.eqb_refl.
  - intros n D. rewrite Hch. apply Nat.eqb_neq in D. rewrite D.
    rewrite add_child_children. now rewrite D.
  - rewrite Hch. now rewrite Nat.eqb_refl.
  - intros Hn. rewrite Hch, Nat.eqb_refl. now rewrite (list_remove_absent _ _ Hn).
Qed.
End MoreTreeFacts.

Section MoreTreeWalks.
Context {N : Type} `{Number N}.
Implicit Types h g : @Heap N.

Lemma Morph_add_parents h P m :
  tree_node_inv h ->
  exists h', Morph_add h P m = Ok h' /\
    forall c, parent (h' c) = if Nat.eqb c m then Some P else parent (h c).
Proof.
  intros Hinv. unfold Morph_add.
  destruct (parent (h m)) as [p|] eqn:Ep.
  - assert (Hin : In m (children (h p))) by now apply (proj1 Hinv).
    destruct (list_remove_spec m Hin (proj2 Hinv p)) as (l & El & _).
    destruct (remove_child_parents h p m El) as (h1 & -> & Hpar & _).
    simpl. eexists. split; [reflexivity|].
    intros c. rewrite add_child_parents, Hpar. now destruct (Nat.eqb c m).
  - eexists. split; [reflexivity|]. intros c. apply add_child_parents.
Qed.

Lemma add_parents h P m :
  tree_node_inv h ->
  exists h', add h P m = Ok h' /\
    forall c, parent (h' c) = if Nat.eqb c m then Some P else parent (h c).
Proof.
  intros Hinv. unfold add.
  assert (HW : exists h', World_add h P m = Ok h' /\
            forall c, parent (h' c) = if Nat.eqb c m then Some P else parent (h c)).
  { unfold World_add. destruct (isinstance h m Class.Menu); [| now apply Morph_add_parents].
    destruct (@Morph_add_parents _ P m
                (tree_node_inv_open_menus P (open_menus (h P) ++ [m]) Hinv))
      as (h' & Eh' & Hpar).
    exists h'. split; [exact Eh'|]. intros c. rewrite Hpar.
    destruct (Nat.eqb c m); [reflexivity|].
    destruct (upd_cases h P (with_open_menus (h P) (open_menus (h P) ++ [m])) c)
      as [[-> ->]|[_ ->]]; reflexivity. }
  pose proof (@Morph_add_parents h P m Hinv) as HM.
  destruct (Class.resolve [Class.Morph; Class.World] (cls (h P))) as [k|];
    [destruct k|]; assumption.
Qed.

(** X11. [add] does not look for cycles.  In a tree configuration,
    adding a morph [m] to itself or to one of its descendants [P]
    returns, makes [P] the parent of [m], and leaves a heap in which
    [root], [depth] and [all_parents] of [m] never return, whatever
    the fuel. *)
Theorem add_to_a_descendant_makes_a_cycle h (P m : ref) :
  tree_node_inv h -> descends h m P ->
  exists h',
    add h P m = Ok h' /\
    parent (h' m) = Some P /\
    forall n, root n h' m = OutOfFuel /\
              depth n h' m = OutOfFuel /\
              all_parents n h' m = OutOfFuel.
Proof.
  intros Hinv Hd.
  destruct (add_parents P m Hinv) as (h' & Eh' & Hpar).
  exists h'. split; [exact Eh'|]. split; [rewrite Hpar; now rewrite Nat.eqb_refl|].
  assert (Hstep : forall a, descends h m a -> descends h a P ->
            exists b, parent (h' a) = Some b /\ descends h m b /\ descends h b P).
  { intros a Hma HaP. destruct (Nat.eq_dec a m) as [->|D].
    - exists P. rewrite Hpar, Nat.eqb_refl. split; [reflexivity|].
      split; [exact Hd | apply descends_self].
    - destruct Hma as [|b a Hmb Hin]; [congruence|].
      exists b. rewrite Hpar. apply Nat.eqb_neq in D. rewrite D.
      split; [now apply (proj1 Hinv)|]. split; [exact Hmb|].
      apply descends_trans with a; [| exact HaP].
      apply descends_child with b; [apply descends_self | exact Hin]. }
  assert (Hloop : forall n a, descends h m a -> descends h a P ->
            root n h' a = OutOfFuel /\ depth n h' a = OutOfFuel /\
            all_parents n h' a = OutOfFuel).
  { induction n as [|n IH]; intros a Hma HaP; [repeat split|].
    destruct (Hstep a Hma HaP) as (b & Eb & Hmb & HbP).
    destruct (IH b Hmb HbP) as (E1 & E2 & E3).
    simpl. rewrite Eb, E1, E2, E3. repeat split. }
  intros n. apply Hloop; [apply descends_self | exact Hd].
Qed.

Lemma last_of_nonempty (l : list ref) (a d1 d2 : ref) :
  last (a :: l) d1 = last (a :: l) d2.
Proof.
  revert a. induction l as [|b l IH]; intros a; [reflexivity|].
  change (last (b :: l) d1 = last (b :: l) d2). apply IH.
Qed.

(** The chain of parents above a node. *)
Lemma chain_returns h m :
  ancestors_end h m ->
  exists l w d,
    returns (fun n => all_parents n h m) (Ok (m :: l)) /\
    returns (fun n => root n h m) (Ok w) /\
    returns (fun n => depth n h m) (Ok d) /\
    last (m :: l) m = w /\
    List.length (m :: l) = d + 1 /\
    parent (h w) = None /\
    (forall a, In a (m :: l) -> returns (fun n => root n h a) (Ok w)).
Proof.
  intros Hacc. induction Hacc as [m _ IH].
  destruct (parent (h m)) as [p|] eqn:Ep.
  - destruct (IH p Ep) as (l & w & d & Hl & Hw & Hd & Hlast & Hlen & Hnone & Hroots).
    assert (Hwm : returns (fun n => root n h m) (Ok w)).
    { refine (returns_step _ _ _ Hw). intros n. simpl. now rewrite Ep. }
    exists (p :: l), w, (d + 1). repeat split.
    + apply (returns_step _ (fun n => l0 <- all_parents n h p ;; Ok ([m] ++ l0))).
      * intros n. simpl. now rewrite Ep.
      * apply (returns_bind (fun n => all_parents n h p)
                 (fun _ l0 => Ok ([m] ++ l0)) Hl). apply returns_const.
    + exact Hwm.
    + apply (returns_step _ (fun n => d0 <- depth n h p ;; Ok (d0 + 1))).
      * intros n. simpl. now rewrite Ep.
      * apply (returns_bind (fun n => depth n h p) (fun _ d0 => Ok (d0 + 1)) Hd).
        apply returns_const.
    + change (last (m :: p :: l) m) with (last (p :: l) m).
      rewrite <- Hlast. apply last_of_nonempty.
    + simpl in *. lia.
    + exact Hnone.
    + intros a [<-|Ha]; [exact Hwm | now apply Hroots].
  - exists [], m, 0. repeat split.
    + exists 1. intros n Hn. destruct n; [lia|]. simpl. now rewrite Ep.
    + exists 1. intros n Hn. destruct n; [lia|]. simpl. now rewrite Ep.
    + exists 1. intros n Hn. destruct n; [lia|]. simpl. now rewrite Ep.
    + exact Ep.
    + intros a [<-|[]]. exists 1. intros n Hn. destruct n; [lia|]. simpl. now rewrite Ep.
Qed.

(** X12. For a node whose chain of ancestors ends, [all_parents]
    returns the node first and the root last, [depth] returns the
    length of that list minus one, the root has no parent, and every
    node of the list has the same root. *)
Theorem all_parents_runs_from_node_to_root h (m : ref) :
  ancestors_end h m ->
  exists l w d,
    returns (fun n => all_parents n h m) (Ok (m :: l)) /\
    returns (fun n => root n h m) (Ok w) /\
    returns (fun n => depth n h m) (Ok d) /\
    last (m :: l) m = w /\
    List.length (m :: l) = d + 1 /\
    parent (h w) = None /\
    (forall a, In a (m :: l) -> returns (fun n => root n h a) (Ok w)).
Proof. apply chain_returns. Qed.

Lemma filter_others_length (m : ref) (l : list ref) :
  NoDup l -> In m l ->
  List.length (filter (fun e => negb (Nat.eqb e m)) l) + 1 = List.length l.
Proof.
  induction l as [|a l IH]; intros Hnd Hin; [destruct Hin|].
  inversion Hnd as [|? ? Ha Hl]; subst. simpl.
  destruct (Nat.eqb_spec a m) as [->|D]; simpl.
  - assert (E : filter (fun e => negb (Nat.eqb e m)) l = l).
    { clear - Ha. induction l as [|b l IHl]; [reflexivity|].
      simpl. destruct (Nat.eqb_spec b m) as [->|D]; simpl.
      - exfalso. apply Ha. now left.
      - f_equal. apply IHl. intros Hi. apply Ha. now right. }
    rewrite E. unfold ref in *. lia.
  - destruct Hin as [Hin|Hin]; [congruence|]. rewrite <- (IH Hl Hin).
    unfold ref in *. lia.
Qed.

(** X13. [siblings] raises [AttributeError] for a node without
    parent.  In a tree configuration, for a node with a parent, it
    returns the nodes other than itself that have that parent, one
    fewer than the parent has children. *)
Theorem siblings_are_the_other_children h (m : ref) :
  (parent (h m) = None -> siblings h m = Raise AttributeError) /\
  (forall p, tree_node_inv h -> parent (h m) = Some p ->
   exists l, siblings h m = Ok l /\
     ~ In m l /\
     (forall a, In a l <-> a <> m /\ parent (h a) = Some p) /\
     List.length l + 1 = List.length (children (h p))).
Proof.
  unfold siblings. split.
  - intros ->. reflexivity.
  - intros p [Hlink Hnd] Ep. rewrite Ep. eexists. split; [reflexivity|].
    split; [| split].
    + rewrite filter_In. intros [_ E]. now rewrite Nat.eqb_refl in E.
    + intros a. rewrite filter_In, negb_true_iff, Nat.eqb_neq, Hlink. tauto.
    + apply filter_others_length; [apply Hnd | now apply Hlink].
Qed.
End MoreTreeWalks.

Section Deleting.
Context {N : Type} `{Number N}.
Implicit Types h g : @Heap N.

Lemma tree_node_inv_links h g : same_links h g -> tree_node_inv h -> tree_node_inv g.
Proof.
  intros L [Hlink Hnd]. split.
  - intros n c. destruct (L c) as (_ & -> & _). destruct (L n) as (_ & _ & -> & _).
    apply Hlink.
  - intros n. destruct (L n) as (_ & _ & -> & _). apply Hnd.
Qed.

Lemma remove_child_keeps_broken h self node h' :
  remove_child h self node = Ok h' -> forall r, broken (h' r) = broken (h r).
Proof.
  unfold remove_child. destruct (list_remove node (children (h self))) as [l|];
    [| discriminate].
  intros E r. injection E as <-. unfold upd.
  destruct (Nat.eqb_spec r node) as [->|D1]; simpl.
  - destruct (Nat.eqb_spec node self) as [->|D2]; reflexivity.
  - destruct (Nat.eqb_spec r self) as [->|D2]; reflexivity.
Qed.

Lemma full_changed_returns h m :
  ancestors_end h m -> subtree_ends h m ->
  exists w fb,
    returns (fun n => root n h m) (Ok w) /\
    returns (fun n => full_bounds n h m) (Ok fb) /\
    returns (fun n => full_changed n h m)
      (Ok (if isinstance h w Class.World then append_broken h w fb else h)).
Proof.
  intros Hup Hdown.
  destruct (root_returns Hup) as (w & Hw & _).
  destruct (full_bounds_returns Hdown) as (fb & Hfb).
  exists w, fb. split; [exact Hw|]. split; [exact Hfb|].
  unfold full_changed.
  apply (returns_bind (fun n => root n h m)
           (fun n w0 => if isinstance h w0 Class.World
                        then b <- full_bounds n h m ;; Ok (append_broken h w0 b)
                        else Ok h) Hw).
  destruct (isinstance h w Class.World); [| apply returns_const].
  apply (returns_bind (fun n => full_bounds n h m)
           (fun _ b => Ok (append_broken h w b)) Hfb).
  apply returns_const.
Qed.

(** X14. For a morph that is no World (a World has a [delete] of its
    own, which asks the user), [delete] of a morph without parent
    changes nothing.  In a
    tree configuration, [delete] of a morph with a parent returns:
    the full bounds the morph had are appended to the [broken] list
    of its root when that is a World, the morph has no parent any
    more and is listed by no node, the heap is a tree configuration,
    and a second [delete] changes nothing. *)
Theorem delete_reports_then_detaches h (m : ref) :
  isinstance h m Class.World = false ->
  (parent (h m) = None -> forall n, delete n h m = Ok h) /\
  (forall p, tree_node_inv h -> ancestors_end h m -> subtree_ends h m ->
   parent (h m) = Some p ->
   exists w fb h',
     returns (fun n => root n h m) (Ok w) /\
     returns (fun n => full_bounds n h m) (Ok fb) /\
     returns (fun n => delete n h m) (Ok h') /\
     parent (h' m) = None /\
     (forall n, ~ In m (children (h' n))) /\
     tree_node_inv h' /\
     broken (h' w) = (if isinstance h w Class.World
                      then broken (h w) ++ [fb] else broken (h w)) /\
     (forall n, delete n h' m = Ok h')).
Proof.
  intros _. split.
  - intros E n. unfold delete. now rewrite E.
  - intros p Hinv Hup Hdown Ep.
    destruct (full_changed_returns Hup Hdown) as (w & fb & Hw & Hfb & Hfc).
    set (h1 := if isinstance h w Class.World then append_broken h w fb else h) in *.
    assert (D1 : only_damage h h1).
    { unfold h1. destruct (isinstance h w Class.World);
        [apply append_broken_damage | apply only_damage_refl]. }
    pose proof (only_damage_links D1) as L1.
    assert (Hin : In m (children (h1 p))).
    { destruct (L1 p) as (_ & _ & -> & _). now apply (proj1 Hinv). }
    destruct (@remove_child_keeps_inv N h1 p m (tree_node_inv_links L1 Hinv) Hin)
      as (h' & Eh' & Hnone & Hfree & _ & _ & Hinv').
    exists w, fb, h'. split; [exact Hw|]. split; [exact Hfb|].
    split; [| split; [exact Hnone | split; [exact Hfree | split; [exact Hinv' | split]]]].
    + unfold delete. rewrite Ep.
      apply (returns_bind (fun n => full_changed n h m)
               (fun _ g => remove_child g p m) Hfc).
      rewrite Eh'. apply returns_const.
    + rewrite (remove_child_keeps_broken _ _ _ Eh'). unfold h1.
      destruct (isinstance h w Class.World); [| reflexivity].
      unfold append_broken. now rewrite upd_same.
    + intros n. unfold delete. now rewrite Hnone.
Qed.
End Deleting.

(** ** Full bounds and the damage of a move *)

Lemma merge_contains_both (a b : Rectangle Z) :
  contains_rectangle (merge a b) a = true /\ contains_rectangle (merge a b) b = true.
Proof. destruct a as [[ax ay] [bx by_]], b as [[cx cy] [dx dy]]. split; int_geometry. Qed.

Lemma contains_rectangle_trans (a b c : Rectangle Z) :
  contains_rectangle a b = true -> contains_rectangle b c = true ->
  contains_rectangle a c = true.
Proof.
  destruct a as [[ax ay] [bx by_]], b as [[cx cy] [dx dy]], c as [[ex ey] [fx fy]].
  intros H1 H2. int_geometry.
Qed.

Lemma contains_rectangle_refl (a : Rectangle Z) : contains_rectangle a a = true.
Proof. destruct a as [[ax ay] [bx by_]]. int_geometry. Qed.

(** The loop of [full_bounds] grows the rectangle it starts from over
    the rectangle of each child. *)
Lemma merge_all_contains (F : ref -> result (Rectangle Z)) cs acc r :
  merge_all F cs acc = Ok r ->
  contains_rectangle r acc = true /\
  forall c, In c cs -> exists b, F c = Ok b /\ contains_rectangle r b = true.
Proof.
  revert acc. induction cs as [|c cs IH]; intros acc E.
  - simpl in E. injection E as <-. split; [apply contains_rectangle_refl | intros c []].
  - simpl in E. destruct (F c) as [b| |] eqn:Eb; try discriminate. simpl in E.
    destruct (IH _ E) as (Hacc & Hcs).
    destruct (merge_contains_both acc b) as (Ha & Hb).
    split; [now apply contains_rectangle_trans with (merge acc b)|].
    intros c' [<-|Hc'].
    + exists b. split; [exact Eb | now apply contains_rectangle_trans with (merge acc b)].
    + now apply Hcs.
Qed.

(** X15. On integer coordinates the full bounds of a morph with a
    finite subtree contain its own bounds; for a morph that is no
    Frame they contain the full bounds of each child, and for a Frame
    they are its bounds merged with the bounds of its last Shadow
    child, if any, whatever its other children are. *)
Theorem full_bounds_cover_the_children (h : @Heap Z) (m : ref) :
  subtree_ends h m ->
  exists fb,
    returns (fun n => full_bounds n h m) (Ok fb) /\
    contains_rectangle fb (bounds (h m)) = true /\
    (isinstance h m Class.Frame = false ->
     forall c, In c (children (h m)) ->
       exists fc, returns (fun n => full_bounds n h c) (Ok fc) /\
                  contains_rectangle fb fc = true) /\
    (isinstance h m Class.Frame = true ->
     fb = match get_shadow h m with
          | Some shadow => merge (bounds (h m)) (bounds (h shadow))
          | None => bounds (h m)
          end).
Proof.
  intros Hdown.
  destruct (full_bounds_returns Hdown) as (fb & Hfb).
  exists fb. split; [exact Hfb|].
  destruct Hfb as (n0 & Hn0).
  pose proof (Hn0 (S n0) (Nat.le_succ_diag_r n0)) as E. simpl in E.
  unfold isinstance.
  destruct (Class.resolve [Class.Morph; Class.Frame] (cls (h m))) as [k|] eqn:Ek.
  - destruct (Class.eq_dec k Class.Frame) as [->|Dk].
    + assert (HF : Class.isinstance (cls (h m)) Class.Frame = true)
        by (revert Ek; destruct (cls (h m)); vm_compute; congruence).
      rewrite HF. split; [| split; [discriminate|]].
      * destruct (get_shadow h m); injection E as <-;
          [apply merge_contains_both | apply contains_rectangle_refl].
      * intros _. destruct (get_shadow h m); now injection E as <-.
    + assert (HF : Class.isinstance (cls (h m)) Class.Frame = false)
        by (revert Ek Dk; destruct (cls (h m)); vm_compute; congruence).
      rewrite HF.
      assert (E' : merge_all (full_bounds n0 h) (children (h m)) (bounds (h m)) = Ok fb)
        by (destruct k; try exact E; congruence).
      destruct (merge_all_contains _ _ _ E') as (Hown & Hcs).
      split; [exact Hown|]. split; [| discriminate].
      intros _ c Hc.
      destruct (full_bounds_returns (Acc_inv Hdown Hc)) as (fc & n1 & Hn1).
      exists fc. split; [now exists n1|].
      pose proof (Hn0 (S (Nat.max n0 n1)) ltac:(lia)) as E2. simpl in E2.
      rewrite Ek in E2.
      assert (E2' : merge_all (full_bounds (Nat.max n0 n1) h) (children (h m))
                      (bounds (h m)) = Ok fb)
        by (destruct k; try exact E2; congruence).
      destruct (merge_all_contains _ _ _ E2') as (_ & Hcs2).
      destruct (Hcs2 c Hc) as (b & Eb & Hb).
      rewrite (Hn1 (Nat.max n0 n1) ltac:(lia)) in Eb. now injection Eb as <-.
  - exfalso. revert Ek. destruct (cls (h m)); vm_compute; congruence.
Qed.

(** ** More runs on the desk *)

(** X8, on the desk: the detached morph [6] is added to the world. *)
Lemma add_keeps_the_tree_invariant_on_the_desk :
  exists h', add (@desk Z _) 0 6 = Ok h' /\ tree_node_inv h'.
Proof. apply add_keeps_the_tree_invariant. exact desk_links. Defined.

(** X9, on the desk: [6] is no child of the world, [2] is one. *)
Lemma remove_child_on_the_desk :
  remove_child (@desk Z _) 0 6 = Raise ValueError /\
  exists h', remove_child (@desk Z _) 0 2 = Ok h' /\
    parent (h' 2) = None /\
    (forall n, ~ In 2 (children (h' n))) /\
    (forall c, c <> 2 -> parent (h' c) = parent (@desk Z _ c)) /\
    (forall n a, a <> 2 ->
       (In a (children (h' n)) <-> In a (children (@desk Z _ n)))) /\
    tree_node_inv h'.
Proof.
  split.
  - apply (proj1 (remove_child_detaches_or_raises (@desk Z _) 0 6)).
    simpl. intuition discriminate.
  - apply (proj2 (remove_child_detaches_or_raises (@desk Z _) 0 2)).
    + exact desk_links.
    + simpl. auto.
Defined.

(** X10, on the desk: [6] is listed by the world and removed again. *)
Lemma remove_child_undoes_add_child_on_the_desk :
  exists h',
    remove_child (add_child (@desk Z _) 0 6) 0 6 = Ok h' /\
    parent (h' 6) = None /\
    children (h' 0) = [4; 2; 3; 7].
Proof.
  destruct (remove_child_undoes_add_child (@desk Z _) 0 6)
    as (h' & E & Hp & _ & _ & Hsame).
  exists h'. split; [exact E|]. split; [exact Hp|].
  apply Hsame. simpl. intuition discriminate.
Defined.

(** X11, on the desk: the string field [4] is added to its own
    string [5]. *)
Lemma add_to_a_descendant_on_the_desk :
  exists h',
    add (@desk Z _) 5 4 = Ok h' /\
    parent (h' 4) = Some 5 /\
    forall n, root n h' 4 = OutOfFuel /\
              depth n h' 4 = OutOfFuel /\
              all_parents n h' 4 = OutOfFuel.
Proof.
  apply add_to_a_descendant_makes_a_cycle.
  - exact desk_links.
  - apply descends_child with (x := 4); [apply descends_self | simpl; auto].
Defined.

(** X12, on the desk: the string [5] in the string field [4] in the
    world [0]. *)
Lemma all_parents_on_the_desk :
  exists l w d,
    returns (fun n => all_parents n (@desk Z _) 5) (Ok (5 :: l)) /\
    returns (fun n => root n (@desk Z _) 5) (Ok w) /\
    returns (fun n => depth n (@desk Z _) 5) (Ok d) /\
    last (5 :: l) 5 = w /\
    List.length (5 :: l) = d + 1 /\
    parent (@desk Z _ w) = None /\
    (forall a, In a (5 :: l) -> returns (fun n => root n (@desk Z _) a) (Ok w)).
Proof.
  apply all_parents_runs_from_node_to_root. exact (desk_ancestors_end 5).
Defined.

(** X13, on the desk: the world has no parent; morph [2] has three
    siblings. *)
Lemma siblings_on_the_desk :
  siblings (@desk Z _) 0 = Raise AttributeError /\
  exists l, siblings (@desk Z _) 2 = Ok l /\
    ~ In 2 l /\
    (forall a, In a l <-> a <> 2 /\ parent (@desk Z _ a) = Some 0) /\
    List.length l + 1 = List.length (children (@desk Z _ 0)).
Proof.
  split.
  - apply (proj1 (siblings_are_the_other_children (@desk Z _) 0)). reflexivity.
  - apply (proj2 (siblings_are_the_other_children (@desk Z _) 2)).
    + exact desk_links.
    + reflexivity.
Defined.

(** X14, on the desk: the detached morph [6] and the morph [2] of the
    world are deleted. *)
Lemma delete_on_the_desk :
  (forall n, delete n (@desk Z _) 6 = Ok desk) /\
  exists w fb h',
    returns (fun n => root n (@desk Z _) 2) (Ok w) /\
    returns (fun n => full_bounds n (@desk Z _) 2) (Ok fb) /\
    returns (fun n => delete n (@desk Z _) 2) (Ok h') /\
    parent (h' 2) = None /\
    (forall n, ~ In 2 (children (h' n))) /\
    tree_node_inv h' /\
    broken (h' w) = (if isinstance (@desk Z _) w Class.World
                     then broken (@desk Z _ w) ++ [fb] else broken (@desk Z _ w)) /\
    (forall n, delete n h' 2 = Ok h').
Proof.
  split.
  - apply (proj1 (delete_reports_then_detaches (@desk Z _) 6 eq_refl)). reflexivity.
  - apply (proj2 (delete_reports_then_detaches (@desk Z _) 2 eq_refl)) with (p := 0).
    + exact desk_links.
    + exact (desk_ancestors_end 2).
    + exact (desk_subtree_ends 2).
    + reflexivity.
Defined.

(** X15, while [6] is dragged: the hand [1] and the morph [6] it
    carries. *)
Lemma full_bounds_while_dragging :
  exists fb,
    returns (fun n => full_bounds n (@dragging Z _) 1) (Ok fb) /\
    contains_rectangle fb (bounds (@dragging Z _ 1)) = true /\
    exists fc, returns (fun n => full_bounds n (@dragging Z _) 6) (Ok fc) /\
               contains_rectangle fb fc = true.
Proof.
  destruct (full_bounds_cover_the_children (dragging_subtree_ends (N := Z) 1))
    as (fb & Hfb & Hown & Hcs & _).
  exists fb. split; [exact Hfb|]. split; [exact Hown|].
  apply Hcs; [reflexivity | simpl; auto].
Defined.

(** ** Subtrees *)

Section Subtrees.
Context {N : Type} `{Number N}.
Implicit Types h g : @Heap N.

(** A descent seen from its upper end. *)
Lemma descends_top h a x :
  descends h a x -> a = x \/ exists c, In c (children (h a)) /\ descends h c x.
Proof.
  induction 1 as [|x c Hd IH Hin]; [now left|]. right.
  destruct IH as [->|(c1 & Hc1 & Hd1)].
  - exists c. split; [exact Hin | apply descends_self].
  - exists c1. split; [exact Hc1 | now apply descends_child with x].
Qed.

(** A node with a finite subtree is below none of its children. *)
Lemma no_cycle h m c :
  subtree_ends h m -> In c (children (h m)) -> descends h c m -> False.
Proof.
  intros Hacc. revert c. induction Hacc as [m _ IH]. intros c Hc Hd.
  destruct (descends_top Hd) as [->|(c1 & Hc1 & Hd1)].
  - exact (IH m Hc m Hc (descends_self _ _)).
  - apply (IH c Hc c1 Hc1). now apply descends_child with m.
Qed.

(** With one parent per node, two ancestors of a node are in line. *)
Lemma descends_linear h a b x :
  tree_node_inv h -> descends h a x -> descends h b x ->
  descends h a b \/ descends h b a.
Proof.
  intros [Hlink _] Ha. revert b. induction Ha as [|x c Ha IH Hin]; intros b Hb.
  - now right.
  - inversion Hb as [|x' c' Hb' Hin']; subst.
    + left. now apply descends_child with x.
    + assert (x' = x).
      { apply (proj2 (Hlink _ _)) in Hin, Hin'. congruence. }
      subst x'. now apply IH.
Qed.

(** In a tree, the subtrees of two children of a node share no node. *)
Lemma siblings_apart h m c c' x :
  tree_node_inv h -> subtree_ends h m ->
  In c (children (h m)) -> In c' (children (h m)) -> c <> c' ->
  descends h c x -> descends h c' x -> False.
Proof.
  intros Hinv Hdown Hc Hc' Hne Hx Hx'.
  assert (Hup : forall a b, In a (children (h m)) -> In b (children (h m)) -> a <> b ->
                            descends h a b -> False).
  { intros a b Ha Hb Hab Hd. inversion Hd as [|y b' Hd' Hin]; subst; [congruence|].
    assert (y = m).
    { apply (proj2 (proj1 Hinv _ _)) in Hin, Hb. congruence. }
    subst y. exact (no_cycle Hdown Ha Hd'). }
  destruct (descends_linear Hinv Hx Hx') as [Hd|Hd].
  - exact (Hup c c' Hc Hc' Hne Hd).
  - exact (Hup c' c Hc' Hc (fun E => Hne (eq_sym E)) Hd).
Qed.

(** The loop of [all_children] in a tree: each node below one of the
    children is listed once. *)
Lemma extend_all_once h m cs :
  tree_node_inv h -> subtree_ends h m ->
  (forall c, In c cs -> In c (children (h m))) -> NoDup cs ->
  (forall c, In c cs ->
     exists lc, returns (fun n => all_children n h c) (Ok lc) /\
                (forall x, In x lc <-> descends h c x) /\ NoDup lc) ->
  exists ls,
    (forall acc, returns (fun n => extend_all (all_children n h) cs acc) (Ok (acc ++ ls))) /\
    (forall x, In x ls <-> exists c, In c cs /\ descends h c x) /\
    NoDup ls.
Proof.
  intros Hinv Hdown. induction cs as [|c cs IH]; intros Hsub Hnd Hcs.
  - exists []. split; [| split].
    + intros acc. rewrite app_nil_r. returns_now.
    + intros x. split; [intros [] | intros (c & [] & _)].
    + constructor.
  - destruct (Hcs c (or_introl eq_refl)) as (lc & Hlc & Hin & Hndc).
    inversion Hnd as [|c0 cs0 Hnotin Hnd']; subst.
    destruct (IH (fun c' Hc' => Hsub c' (or_intror Hc')) Hnd'
                 (fun c' Hc' => Hcs c' (or_intror Hc')))
      as (ls & Hls & Hins & Hndls).
    exists (lc ++ ls). split; [| split].
    + intros acc. simpl extend_all.
      apply (returns_bind (fun n => all_children n h c)
               (fun n l => extend_all (all_children n h) cs (acc ++ l)) Hlc).
      rewrite app_assoc. apply Hls.
    + intros x. rewrite in_app_iff, Hin, Hins. split.
      * intros [Hd|(c' & Hc' & Hd)]; [exists c | exists c']; split; auto.
        -- now left.
        -- now right.
      * intros (c' & [<-|Hc'] & Hd); [now left | right; now exists c'].
    + apply NoDup_app; [exact Hndc | exact Hndls |].
      intros x Hx Hx'. apply Hin in Hx. apply Hins in Hx'.
      destruct Hx' as (c' & Hc' & Hd').
      apply (@siblings_apart h m c c' x Hinv Hdown); auto.
      * apply Hsub. now left.
      * apply Hsub. now right.
      * intros ->. contradiction.
Qed.

(** In a tree, [all_children] lists the node first and then each of
    its descendants, once. *)
Lemma all_children_once h m :
  tree_node_inv h -> subtree_ends h m ->
  exists rest,
    returns (fun n => all_children n h m) (Ok (m :: rest)) /\
    (forall x, In x (m :: rest) <-> descends h m x) /\
    NoDup (m :: rest).
Proof.
  intros Hinv Hdown. induction Hdown as [m Hacc IH].
  assert (Hdown : subtree_ends h m) by (constructor; exact Hacc).
  destruct (@extend_all_once h m (children (h m)) Hinv Hdown (fun c Hc => Hc)
              (proj2 Hinv m)) as (ls & Hls & Hins & Hnd).
  { intros c Hc. destruct (IH c Hc) as (rest & Hr & Hin & Hndc).
    exists (c :: rest). auto. }
  exists ls. split; [| split].
  - refine (returns_step _ _ _ (Hls [m])). reflexivity.
  - intros x. split.
    + intros [<-|Hx]; [apply descends_self|].
      apply Hins in Hx. destruct Hx as (c & Hc & Hd).
      apply descends_trans with c; [| exact Hd].
      apply descends_child with m; [apply descends_self | exact Hc].
    + intros Hd. destruct (descends_top Hd) as [->|(c & Hc & Hd')]; [now left|].
      right. apply Hins. now exists c.
  - constructor; [| exact Hnd].
    intros Hm. apply Hins in Hm. destruct Hm as (c & Hc & Hd).
    exact (no_cycle Hdown Hc Hd).
Qed.
End Subtrees.

(** ** What [move_by] changes *)

Section MoveByEffect.
Context {N : Type} `{Number N}.
Implicit Types h g : @Heap N.

Lemma only_moved_refl h : only_moved h h.
Proof.
  intros r. exists (bounds (h r)), []. rewrite app_nil_r. now destruct (h r).
Qed.

Lemma only_moved_trans h g k : only_moved h g -> only_moved g k -> only_moved h k.
Proof.
  intros Hg Hk r. destruct (Hg r) as (b & l & Eg). destruct (Hk r) as (b' & l' & Ek).
  exists b', (l ++ l'). rewrite Ek, Eg. simpl. now rewrite app_assoc.
Qed.

Lemma only_moved_append h w b : only_moved h (append_broken h w b).
Proof.
  intros r. unfold append_broken.
  destruct (upd_cases h w (with_broken (h w) (broken (h w) ++ [b])) r) as [[-> ->]|[_ ->]].
  - exists (bounds (h w)), [b]. now destruct (h w).
  - apply only_moved_refl.
Qed.

Lemma only_moved_bounds h m b : only_moved h (upd h m (with_bounds (h m) b)).
Proof.
  intros r.
  destruct (upd_cases h m (with_bounds (h m) b) r) as [[-> ->]|[_ ->]].
  - exists b, []. rewrite app_nil_r. now destruct (h m).
  - apply only_moved_refl.
Qed.

Lemma changed_only_moved n h m g : changed n h m = Ok g -> only_moved h g.
Proof.
  unfold changed. intros E.
  assert (HM : (w <- root n h m ;;
                if isinstance h w Class.World then Ok (append_broken h w (bounds (h m)))
                else Ok h) = Ok g -> only_moved h g).
  { clear E. intros E. destruct (root n h m) as [w| |]; try discriminate. simpl in E.
    destruct (isinstance h w Class.World); injection E as <-;
      [apply only_moved_append | apply only_moved_refl]. }
  destruct (Class.resolve [Class.Morph; Class.Hand] (cls (h m))) as [k|];
    [destruct k|]; try (exact (HM E)).
  destruct (_world (h m)) as [w|]; [| injection E as <-; apply only_moved_refl].
  destruct (full_bounds n h m) as [b| |]; try discriminate. simpl in E.
  destruct (point_ne (extent b) (mkPoint (lit 0) (lit 0)));
    injection E as <-; [apply only_moved_append | apply only_moved_refl].
Qed.

Lemma for_each_only_moved (f : @Heap N -> ref -> result (@Heap N)) cs :
  (forall g c g', f g c = Ok g' -> only_moved g g') ->
  forall h g, for_each f cs h = Ok g -> only_moved h g.
Proof.
  intros Hf. induction cs as [|c cs IH]; intros h g E.
  - injection E as <-. apply only_moved_refl.
  - simpl in E. destruct (f h c) as [h1| |] eqn:E1; try discriminate. simpl in E.
    apply only_moved_trans with h1; [exact (Hf _ _ _ E1) | exact (IH _ _ E)].
Qed.

Lemma move_by_S n h m d :
  move_by (S n) h m d =
    (h1 <- changed (S n) h m ;;
     let h2 := upd h1 m (with_bounds (h1 m) (translate_by (bounds (h1 m)) d)) in
     h3 <- for_each (fun g c => move_by n g c d) (children (h2 m)) h2 ;;
     changed (S n) h3 m).
Proof. reflexivity. Qed.

(** Whatever [move_by] returns differs from the heap it started on in
    bounds and in damage recorded only. *)
Lemma move_by_only_moved n : forall h m d g, move_by n h m d = Ok g -> only_moved h g.
Proof.
  induction n as [|n IH]; intros h m d g E; [discriminate|].
  rewrite move_by_S in E.
  destruct (changed (S n) h m) as [h1| |] eqn:E1; try discriminate.
  unfold bind at 1 in E. cbv zeta in E.
  destruct (for_each (fun g0 c => move_by n g0 c d)
              (children (upd h1 m (with_bounds (h1 m) (translate_by (bounds (h1 m)) d)) m))
              (upd h1 m (with_bounds (h1 m) (translate_by (bounds (h1 m)) d))))
    as [h3| |] eqn:E3; try discriminate.
  unfold bind at 1 in E.
  apply only_moved_trans with h1; [exact (changed_only_moved _ _ _ E1)|].
  apply only_moved_trans with (upd h1 m (with_bounds (h1 m) (translate_by (bounds (h1 m)) d)));
    [apply only_moved_bounds|].
  apply only_moved_trans with h3; [| exact (changed_only_moved _ _ _ E)].
  apply (for_each_only_moved (fun g0 c => move_by n g0 c d) _
           (fun g0 c g' E' => IH g0 c d g' E') _ E3).
Qed.
End MoveByEffect.

Section MoveByTheorems.
Context {N : Type} `{Number N}.
Implicit Types h g : @Heap N.

(** In a tree [move_by] translates each node of the subtree once. *)
Lemma move_by_exact h m d :
  (forall r, ancestors_end h r) -> tree_node_inv h -> subtree_ends h m ->
  exists g,
    returns (fun n => move_by n h m d) (Ok g) /\
    (forall r, descends h m r -> bounds (g r) = translate_by (bounds (h r)) d) /\
    (forall r, ~ descends h m r -> bounds (g r) = bounds (h r)) /\
    only_moved h g /\
    tree_node_inv g.
Proof.
  intros Hup Hinv Hdown.
  destruct (move_by_moves Hup Hdown) as (l & Hl & Hmv).
  destruct (all_children_once Hinv Hdown) as (rest & Hr & Hin & Hnd).
  pose proof (returns_inj _ Hl Hr) as El. injection El as ->.
  destruct (Hmv d h (same_links_refl h)) as (g & Hg & L & B).
  exists g. split; [exact Hg|]. split; [| split; [| split]].
  - intros r Hd. apply Hin in Hd. rewrite B.
    rewrite (proj1 (NoDup_count_occ' Nat.eq_dec (m :: rest)) Hnd r Hd). reflexivity.
  - intros r Hd. rewrite B.
    assert (Hn : ~ In r (m :: rest)) by (intros Hi; apply Hd; now apply Hin).
    rewrite (proj1 (count_occ_not_In Nat.eq_dec (m :: rest) r) Hn). reflexivity.
  - destruct Hg as (n0 & Hn0). exact (move_by_only_moved _ _ _ _ (Hn0 n0 (le_n _))).
  - exact (tree_node_inv_links L Hinv).
Qed.

(** X16. In a tree configuration [move_by(d)] returns; it translates
    the bounds of the morph and of each of its descendants by [d],
    once, and leaves the bounds of every other morph alone; apart
    from bounds, only damage is recorded, none is lost, and the tree
    is as it was. *)
Theorem move_by_translates_the_subtree h (m : ref) (d : Point N) :
  (forall r, ancestors_end h r) -> tree_node_inv h -> subtree_ends h m ->
  exists g,
    returns (fun n => move_by n h m d) (Ok g) /\
    (forall r, descends h m r -> bounds (g r) = translate_by (bounds (h r)) d) /\
    (forall r, ~ descends h m r -> bounds (g r) = bounds (h r)) /\
    (forall r, exists l,
       g r = with_broken (with_bounds (h r) (bounds (g r))) (broken (h r) ++ l)) /\
    (forall r, parent (g r) = parent (h r) /\ children (g r) = children (h r)) /\
    tree_node_inv g.
Proof.
  intros Hup Hinv Hdown.
  destruct (move_by_exact d Hup Hinv Hdown) as (g & Hg & Hin & Hout & Hom & Hinv').
  exists g. split; [exact Hg|]. split; [exact Hin|]. split; [exact Hout|].
  split; [| split; [| exact Hinv']].
  - intros r. destruct (Hom r) as (b & l & E). exists l. rewrite E. reflexivity.
  - intros r. destruct (Hom r) as (b & l & E). rewrite E. simpl. auto.
Qed.

Lemma changed_reports h m w :
  isinstance h m Class.Hand = false ->
  returns (fun n => root n h m) (Ok w) ->
  isinstance h w Class.World = true ->
  returns (fun n => changed n h m) (Ok (append_broken h w (bounds (h m)))).
Proof.
  intros Hm Hw HW.
  apply (returns_ext _
           (fun n => w0 <- root n h m ;;
              if isinstance h w0 Class.World
              then Ok (append_broken h w0 (bounds (h m))) else Ok h)).
  - intros n. now apply changed_of_Morph.
  - apply (returns_bind (fun n => root n h m)
             (fun _ w0 => if isinstance h w0 Class.World
                          then Ok (append_broken h w0 (bounds (h m))) else Ok h) Hw).
    rewrite HW. apply returns_const.
Qed.

Lemma root_returns_links h g m w :
  same_links h g -> returns (fun n => root n h m) (Ok w) ->
  returns (fun n => root n g m) (Ok w).
Proof.
  intros L Hw. apply (returns_ext _ (fun n => root n h m)); [| exact Hw].
  intros n. now apply root_links.
Qed.

(** X17. [move_by] brackets the damage of a move: for a morph that
    is no Hand, with a finite subtree, below a World [w], the list
    [w.broken] grows by the old bounds of the morph first and by its
    new bounds last, with what its descendants report in between,
    which is nothing for a morph without children. *)
Theorem move_by_reports_old_and_new_bounds h (m : ref) (d : Point N) :
  (forall r, ancestors_end h r) -> subtree_ends h m ->
  isinstance h m Class.Hand = false ->
  exists w g,
    returns (fun n => root n h m) (Ok w) /\
    returns (fun n => move_by n h m d) (Ok g) /\
    bounds (g m) = translate_by (bounds (h m)) d /\
    (isinstance h w Class.World = true ->
     exists mid,
       broken (g w) = broken (h w) ++ [bounds (h m)] ++ mid
                        ++ [translate_by (bounds (h m)) d] /\
       (children (h m) = [] -> mid = [])).
Proof.
  intros Hup Hdown Hm.
  destruct (root_returns (Hup m)) as (w & Hw & _).
  assert (Hkids : forall c, In c (children (h m)) ->
            exists lc, returns (fun n => all_children n h c) (Ok (c :: lc)) /\
                       forall x, In x lc -> descends h c x)
    by (intros c Hc; exact (all_children_returns (Acc_inv Hdown Hc))).
  destruct (extend_all_returns (children (h m)) Hkids) as (ls' & Hls' & Hds).
  destruct (@for_each_moves N _ h (children (h m))
              (fun c Hc => move_by_moves Hup (Acc_inv Hdown Hc)))
    as (ls & Hls & Hms).
  pose proof (returns_inj _ (Hls []) (Hls' [])) as El. injection El as El. subst ls'.
  assert (Hnot : ~ In m ls).
  { intros Hi. destruct (Hds m Hi) as (c & Hc & Hd). exact (no_cycle Hdown Hc Hd). }
  (* the damage reported before the move *)
  destruct (changed_returns (Hup m) Hdown) as (h1 & H1 & D1).
  set (h2 := upd h1 m (with_bounds (h1 m) (translate_by (bounds (h1 m)) d))).
  assert (M2 : moved [m] d h h2)
    by (apply moved_damage_l with h1; [exact D1 | apply moved_one]).
  destruct (Hms d h2 (proj1 M2)) as (h3 & H3 & M3).
  assert (L3 : same_links h h3)
    by (apply same_links_trans with h2; [apply M2 | apply M3]).
  destruct (changed_returns (ancestors_end_links L3 (Hup m))
              (subtree_ends_links L3 Hdown)) as (h4 & H4 & D4).
  assert (Hmove : returns (fun n => move_by n h m d) (Ok h4)).
  { apply (returns_step _
             (fun n => h1' <- changed (S n) h m ;;
                let h2' := upd h1' m (with_bounds (h1' m)
                             (translate_by (bounds (h1' m)) d)) in
                h3' <- for_each (fun g0 c => move_by n g0 c d) (children (h2' m)) h2' ;;
                changed (S n) h3' m)); [reflexivity|].
    apply (returns_bind (fun n => changed (S n) h m)
             (fun n h1' =>
                let h2' := upd h1' m (with_bounds (h1' m)
                             (translate_by (bounds (h1' m)) d)) in
                h3' <- for_each (fun g0 c => move_by n g0 c d) (children (h2' m)) h2' ;;
                changed (S n) h3' m)
             (returns_shift _ H1)).
    cbv zeta. fold h2.
    replace (children (h2 m)) with (children (h m))
      by (symmetry; apply (proj1 M2 m)).
    apply (returns_bind
             (fun n => for_each (fun g0 c => move_by n g0 c d) (children (h m)) h2)
             (fun n h3' => changed (S n) h3' m) H3).
    apply (returns_shift _ H4). }
  assert (B2 : bounds (h2 m) = translate_by (bounds (h m)) d).
  { unfold h2. rewrite upd_same. simpl. now rewrite (only_damage_bounds m D1). }
  assert (B3 : bounds (h3 m) = translate_by (bounds (h m)) d).
  { rewrite (proj2 M3 m).
    rewrite (proj1 (count_occ_not_In Nat.eq_dec ls m) Hnot). exact B2. }
  exists w, h4. split; [exact Hw|]. split; [exact Hmove|].
  split; [now rewrite (only_damage_bounds m D4)|].
  intros HW.
  pose proof (returns_inj _ H1 (@changed_reports h m w Hm Hw HW)) as E1. injection E1 as E1.
  assert (Hm3 : isinstance h3 m Class.Hand = false)
    by (rewrite (isinstance_links m Class.Hand L3); exact Hm).
  assert (HW3 : isinstance h3 w Class.World = true)
    by (rewrite (isinstance_links w Class.World L3); exact HW).
  pose proof (returns_inj _ H4
                (@changed_reports h3 m w Hm3 (@root_returns_links h h3 m w L3 Hw) HW3)) as E4.
  injection E4 as E4.
  assert (T3 : only_moved h2 h3).
  { destruct H3 as (n0 & Hn0).
    apply (for_each_only_moved (fun g0 c => move_by n0 g0 c d) _
             (fun g0 c g' E' => move_by_only_moved n0 g0 c d E') _ (Hn0 n0 (le_n _))). }
  destruct (T3 w) as (b3 & mid & Ew3).
  assert (Bk2 : broken (h2 w) = broken (h w) ++ [bounds (h m)]).
  { unfold h2.
    destruct (upd_cases h1 m (with_bounds (h1 m) (translate_by (bounds (h1 m)) d)) w)
      as [[-> ->]|[_ ->]]; simpl; rewrite E1; unfold append_broken;
      now rewrite upd_same. }
  exists mid. split.
  - rewrite E4. unfold append_broken. rewrite upd_same. simpl.
    rewrite Ew3. simpl. rewrite Bk2, B3. now rewrite <- !app_assoc.
  - intros Ec. rewrite Ec in H3.
    pose proof (returns_inj _ H3 (returns_const (Ok h2))) as E3. injection E3 as E3.
    rewrite E3 in Ew3.
    assert (El : broken (h2 w) ++ [] = broken (h2 w) ++ mid).
    { rewrite app_nil_r. rewrite Ew3 at 1. reflexivity. }
    apply app_inv_head in El. now symmetry.
Qed.
End MoveByTheorems.

(** ** Setting the position *)

Lemma translate_by_zero (b : Rectangle Z) (d : Point Z) :
  x d = 0%Z -> y d = 0%Z -> translate_by b d = b.
Proof.
  destruct b as [[ox oy] [cx cy]], d as [dx dy]. simpl. intros -> ->.
  unfold translate_by, point_add. simpl. f_equal; f_equal; lia.
Qed.

(** X18. On integer coordinates, in a tree configuration,
    [set_position(p)] returns and leaves the origin of the morph at
    [p]; the morph and each of its descendants are translated by the
    same delta, so the extent of each and their offsets to one another
    are kept, and no other morph moves.  When the morph is at [p]
    already the heap is left as it is: no damage is recorded. *)
Theorem set_position_moves_the_subtree (h : @Heap Z) (m : ref) (p : Point Z) :
  (forall r, ancestors_end h r) -> tree_node_inv h -> subtree_ends h m ->
  exists g,
    returns (fun n => set_position n h m p) (Ok g) /\
    origin (bounds (g m)) = p /\
    (forall r, descends h m r ->
       bounds (g r)
       = translate_by (bounds (h r)) (point_sub p (origin (bounds (h m)))) /\
       extent (bounds (g r)) = extent (bounds (h r))) /\
    (forall r, ~ descends h m r -> bounds (g r) = bounds (h r)) /\
    (origin (bounds (h m)) = p -> g = h) /\
    tree_node_inv g.
Proof.
  intros Hup Hinv Hdown.
  set (delta := point_sub p (origin (bounds (h m)))).
  assert (Hext : forall b : Rectangle Z, extent (translate_by b delta) = extent b).
  { intros [[ox oy] [cx cy]]. destruct delta as [dx dy].
    unfold extent, translate_by, point_sub, point_add. simpl. f_equal; lia. }
  destruct (negb (num_eq (x delta) (lit 0) && num_eq (y delta) (lit 0))) eqn:Ez.
  - destruct (move_by_exact delta Hup Hinv Hdown) as (g & Hg & Hin & Hout & _ & Hinv').
    exists g. split; [| split; [| split; [| split; [| split]]]].
    + apply (returns_ext _ (fun n => move_by n h m delta)); [| exact Hg].
      intros n. unfold set_position, top_left. cbv zeta. fold delta. now rewrite Ez.
    + rewrite (Hin m (descends_self _ _)). unfold delta.
      destruct p as [px py], (bounds (h m)) as [[ox oy] [cx cy]].
      unfold translate_by, point_add, point_sub. simpl. f_equal; lia.
    + intros r Hd. rewrite (Hin r Hd). split; [reflexivity | apply Hext].
    + exact Hout.
    + intros Ep. exfalso. unfold delta in Ez. rewrite Ep in Ez.
      destruct p as [px py]. unfold point_sub in Ez. simpl in Ez.
      rewrite !Z.sub_diag in Ez. discriminate.
    + exact Hinv'.
  - assert (Hzero : x delta = 0%Z /\ y delta = 0%Z).
    { apply negb_false_iff, andb_true_iff in Ez. simpl in Ez.
      destruct Ez as [Ex Ey]. apply Z.eqb_eq in Ex, Ey. auto. }
    destruct Hzero as [Hx Hy].
    exists h. split; [| split; [| split; [| split; [| split]]]].
    + exists 0. intros n _. unfold set_position, top_left. cbv zeta. fold delta. now rewrite Ez.
    + unfold delta in Hx, Hy.
      destruct p as [px py], (bounds (h m)) as [[ox oy] [cx cy]].
      unfold point_sub in Hx, Hy. simpl in *. f_equal; lia.
    + intros r _. now rewrite (translate_by_zero _ _ Hx Hy).
    + reflexivity.
    + reflexivity.
    + exact Hinv.
Qed.

(** ** Hiding and showing *)

Section Visibility.
Context {N : Type} `{Number N}.
Implicit Types h g : @Heap N.

(** [hide], [show] and [toggle_visibility] are one walk, with the
    new visibility computed from the old by [v]. *)
Variable v : bool -> bool.
Variable walk : nat -> @Heap N -> ref -> result (@Heap N).
Hypothesis walk_S : forall n h m,
  walk (S n) h m =
    (let h1 := upd h m (with_is_visible (h m) (v (is_visible (h m)))) in
     h2 <- changed (S n) h1 m ;;
     for_each (walk n) (children (h2 m)) h2).

Lemma repainted_links l h g : repainted v l h g -> same_links h g.
Proof. intros R r. destruct (R r) as (d & ->). simpl. auto. Qed.

Lemma repainted_damage h g : only_damage h g -> repainted v [] h g.
Proof.
  intros D r. destruct (D r) as (d & ->). exists d. simpl. now destruct (h r).
Qed.

Lemma repainted_app l1 l2 h g k :
  repainted v l1 h g -> repainted v l2 g k -> repainted v (l1 ++ l2) h k.
Proof.
  intros R1 R2 r. destruct (R1 r) as (d1 & E1). destruct (R2 r) as (d2 & E2).
  exists d2. rewrite E2, E1. simpl.
  rewrite count_occ_app, (Nat.add_comm (count_occ Nat.eq_dec l1 r)), Nat.iter_add.
  reflexivity.
Qed.

Lemma repainted_one h m :
  repainted v [m] h (upd h m (with_is_visible (h m) (v (is_visible (h m))))).
Proof.
  intros r. exists (broken (h r)). simpl.
  destruct (upd_cases h m (with_is_visible (h m) (v (is_visible (h m)))) r)
    as [[-> ->]|[D ->]].
  - destruct (Nat.eq_dec m m); [| congruence]. simpl. now destruct (h m).
  - destruct (Nat.eq_dec m r); [congruence|]. simpl. now destruct (h r).
Qed.

Section Loop.
Variable h : @Heap N.
Hypothesis Hup : forall r, ancestors_end h r.

Lemma for_each_repaints cs :
  (forall c, In c cs ->
     exists lc, returns (fun n => all_children n h c) (Ok lc) /\
       forall g, same_links h g ->
         exists g', returns (fun n => walk n g c) (Ok g') /\ repainted v lc g g') ->
  exists ls,
    (forall acc, returns (fun n => extend_all (all_children n h) cs acc) (Ok (acc ++ ls))) /\
    forall g, same_links h g ->
      exists g', returns (fun n => for_each (walk n) cs g) (Ok g') /\ repainted v ls g g'.
Proof.
  induction cs as [|c cs IH]; intros Hcs.
  - exists []. split.
    + intros acc. rewrite app_nil_r. returns_now.
    + intros g _. exists g. split; [returns_now|].
      apply repainted_damage, only_damage_refl.
  - destruct (Hcs c (or_introl eq_refl)) as (lc & Hlc & Hwc).
    destruct (IH (fun c' Hc' => Hcs c' (or_intror Hc'))) as (ls & Hls & Hws).
    exists (lc ++ ls). split.
    + intros acc. simpl extend_all.
      apply (returns_bind (fun n => all_children n h c)
               (fun n l => extend_all (all_children n h) cs (acc ++ l)) Hlc).
      rewrite app_assoc. apply Hls.
    + intros g Lg. destruct (Hwc g Lg) as (g1 & Hg1 & R1).
      assert (L1 : same_links h g1)
        by (apply same_links_trans with g; [exact Lg | exact (repainted_links R1)]).
      destruct (Hws g1 L1) as (g2 & Hg2 & R2).
      exists g2. split; [| exact (repainted_app R1 R2)].
      simpl for_each.
      apply (returns_bind (fun n => walk n g c)
               (fun n g0 => for_each (walk n) cs g0) Hg1 Hg2).
Qed.

Lemma walk_repaints m :
  subtree_ends h m ->
  exists l, returns (fun n => all_children n h m) (Ok l) /\
    forall g, same_links h g ->
      exists g', returns (fun n => walk n g m) (Ok g') /\ repainted v l g g'.
Proof.
  intros Hdown. induction Hdown as [m Hacc IH].
  destruct (for_each_repaints (children (h m)) IH) as (ls & Hls & Hws).
  exists ([m] ++ ls). split.
  - refine (returns_step _ _ _ (Hls [m])). reflexivity.
  - intros g Lg.
    assert (Hdown : subtree_ends h m) by (constructor; exact Hacc).
    set (h1 := upd g m (with_is_visible (g m) (v (is_visible (g m))))).
    assert (R1 : repainted v [m] g h1) by apply repainted_one.
    assert (L1 : same_links h h1)
      by (apply same_links_trans with g; [exact Lg | exact (repainted_links R1)]).
    destruct (changed_returns (ancestors_end_links L1 (Hup m))
                (subtree_ends_links L1 Hdown)) as (h2 & H2 & D2).
    assert (L2 : same_links h h2)
      by (apply same_links_trans with h1; [exact L1 | now apply only_damage_links]).
    destruct (Hws h2 L2) as (h3 & H3 & R3).
    exists h3. split.
    + apply (returns_step _
               (fun n => h2' <- changed (S n) h1 m ;;
                         for_each (walk n) (children (h2' m)) h2')).
      { intros n. rewrite walk_S. reflexivity. }
      apply (returns_bind (fun n => changed (S n) h1 m)
               (fun n h2' => for_each (walk n) (children (h2' m)) h2')
               (returns_shift _ H2)).
      replace (children (h2 m)) with (children (h m))
        by (symmetry; apply (L2 m)).
      exact H3.
    + apply (repainted_app R1).
      change ls with ([] ++ ls).
      exact (repainted_app (repainted_damage D2) R3).
Qed.
End Loop.

(** In a tree the walk sends the visibility of each node of the
    subtree through [v] once. *)
Lemma walk_exact h m :
  (forall r, ancestors_end h r) -> tree_node_inv h -> subtree_ends h m ->
  forall g, same_links h g ->
  exists g',
    returns (fun n => walk n g m) (Ok g') /\
    same_links h g' /\
    (forall r, descends h m r -> is_visible (g' r) = v (is_visible (g r))) /\
    (forall r, ~ descends h m r -> is_visible (g' r) = is_visible (g r)) /\
    (forall r, exists d, g' r = with_broken (with_is_visible (g r) (is_visible (g' r))) d).
Proof.
  intros Hup Hinv Hdown g Lg.
  destruct (walk_repaints Hup Hdown) as (l & Hl & Hw).
  destruct (all_children_once Hinv Hdown) as (rest & Hr & Hin & Hnd).
  pose proof (returns_inj _ Hl Hr) as El. injection El as ->.
  destruct (Hw g Lg) as (g' & Hg' & R).
  exists g'. split; [exact Hg'|].
  split; [apply same_links_trans with g; [exact Lg | exact (repainted_links R)]|].
  split; [| split].
  - intros r Hd. apply Hin in Hd. destruct (R r) as (d & ->).
    rewrite (proj1 (NoDup_count_occ' Nat.eq_dec (m :: rest)) Hnd r Hd). reflexivity.
  - intros r Hd. destruct (R r) as (d & ->).
    assert (Hn : ~ In r (m :: rest)) by (intros Hi; apply Hd; now apply Hin).
    rewrite (proj1 (count_occ_not_In Nat.eq_dec (m :: rest) r) Hn). reflexivity.
  - intros r. destruct (R r) as (d & E). exists d. rewrite E. reflexivity.
Qed.
End Visibility.

Section VisibilityTheorems.
Context {N : Type} `{Number N}.
Implicit Types h g : @Heap N.

(** X19. In a tree configuration [hide] returns and leaves the morph
    and each of its descendants invisible, and [show] after it
    leaves them all visible, also those that were invisible before
    the [hide]; the visibility of every other morph, and everything
    but visibility and recorded damage, is left alone. *)
Theorem hide_then_show_shows_the_subtree h (m : ref) :
  (forall r, ancestors_end h r) -> tree_node_inv h -> subtree_ends h m ->
  exists g1 g2,
    returns (fun n => hide n h m) (Ok g1) /\
    returns (fun n => show n g1 m) (Ok g2) /\
    (forall r, descends h m r ->
       is_visible (g1 r) = false /\ is_visible (g2 r) = true) /\
    (forall r, ~ descends h m r ->
       is_visible (g1 r) = is_visible (h r) /\ is_visible (g2 r) = is_visible (h r)) /\
    (forall r, exists d1 d2,
       g1 r = with_broken (with_is_visible (h r) (is_visible (g1 r))) d1 /\
       g2 r = with_broken (with_is_visible (h r) (is_visible (g2 r))) d2).
Proof.
  intros Hup Hinv Hdown.
  destruct (@walk_exact N _ (fun _ => false) hide (fun n h0 m0 => eq_refl) h m
              Hup Hinv Hdown h (same_links_refl h))
    as (g1 & Hg1 & L1 & Hin1 & Hout1 & F1).
  destruct (@walk_exact N _ (fun _ => true) show (fun n h0 m0 => eq_refl) h m
              Hup Hinv Hdown g1 L1)
    as (g2 & Hg2 & L2 & Hin2 & Hout2 & F2).
  exists g1, g2. split; [exact Hg1|]. split; [exact Hg2|]. split; [| split].
  - intros r Hd. split; [exact (Hin1 r Hd) | exact (Hin2 r Hd)].
  - intros r Hd. split; [exact (Hout1 r Hd)|].
    rewrite (Hout2 r Hd). exact (Hout1 r Hd).
  - intros r. destruct (F1 r) as (d1 & E1). destruct (F2 r) as (d2 & E2).
    exists d1, d2. split; [exact E1|].
    rewrite E2. rewrite E1 at 1. reflexivity.
Qed.

(** X20. In a tree configuration [toggle_visibility] returns and
    inverts the visibility of the morph and of each of its
    descendants, one by one, so a subtree of mixed visibility stays
    mixed; no other morph changes, and a second [toggle_visibility]
    gives every morph the visibility it had. *)
Theorem toggle_visibility_twice h (m : ref) :
  (forall r, ancestors_end h r) -> tree_node_inv h -> subtree_ends h m ->
  exists g1 g2,
    returns (fun n => toggle_visibility n h m) (Ok g1) /\
    returns (fun n => toggle_visibility n g1 m) (Ok g2) /\
    (forall r, descends h m r -> is_visible (g1 r) = negb (is_visible (h r))) /\
    (forall r, ~ descends h m r -> is_visible (g1 r) = is_visible (h r)) /\
    (forall r, is_visible (g2 r) = is_visible (h r)) /\
    (forall r, exists d, g2 r = with_broken (h r) d).
Proof.
  intros Hup Hinv Hdown.
  destruct (@walk_exact N _ negb toggle_visibility (fun n h0 m0 => eq_refl) h m
              Hup Hinv Hdown h (same_links_refl h))
    as (g1 & Hg1 & L1 & Hin1 & Hout1 & F1).
  destruct (@walk_exact N _ negb toggle_visibility (fun n h0 m0 => eq_refl) h m
              Hup Hinv Hdown g1 L1)
    as (g2 & Hg2 & L2 & Hin2 & Hout2 & F2).
  assert (Hvis : forall r, is_visible (g2 r) = is_visible (h r)).
  { intros r.
    destruct (all_children_once Hinv Hdown) as (rest & _ & Hin & _).
    destruct (in_dec Nat.eq_dec r (m :: rest)) as [Hi|Hi].
    - apply Hin in Hi. rewrite (Hin2 r Hi), (Hin1 r Hi). apply negb_involutive.
    - assert (Hd : ~ descends h m r) by (intros Hd; apply Hi; now apply Hin).
      rewrite (Hout2 r Hd). exact (Hout1 r Hd). }
  exists g1, g2. split; [exact Hg1|]. split; [exact Hg2|].
  split; [exact Hin1|]. split; [exact Hout1|]. split; [exact Hvis|].
  intros r. destruct (F1 r) as (d1 & E1). destruct (F2 r) as (d2 & E2).
  exists d2. rewrite E2, (Hvis r). rewrite E1. simpl. now destruct (h r).
Qed.
End VisibilityTheorems.

(** ** The morph to grab *)

Section Grabbing.
Context {N : Type} `{Number N}.
Implicit Types h : @Heap N.

Lemma root_for_grab_S n h m :
  root_for_grab (S n) h m =
    if isinstance h m Class.Resizer || isinstance h m Class.ColorPicker then Ok m
    else match parent (h m) with
         | None => Ok m
         | Some p => if isinstance h p Class.Frame then Ok m else root_for_grab n h p
         end.
Proof. simpl. unfold isinstance. destruct (cls (h m)); reflexivity. Qed.

(** [root_for_grab] climbs to the first morph that stops it. *)
Lemma root_for_grab_exact h (m : ref) :
  ancestors_end h m ->
  exists g ps,
    returns (fun n => root_for_grab n h m) (Ok g) /\
    returns (fun n => all_parents n h m) (Ok ps) /\
    In g ps /\
    (isinstance h g Class.Resizer = true \/
     isinstance h g Class.ColorPicker = true \/
     parent (h g) = None \/
     exists p, parent (h g) = Some p /\ isinstance h p Class.Frame = true) /\
    (g = m \/ isinstance h g Class.Frame = false) /\
    returns (fun n => root_for_grab n h g) (Ok g).
Proof.
  intros Hacc. induction Hacc as [m _ IH].
  assert (Hps : exists l, returns (fun n => all_parents n h m) (Ok (m :: l)) /\
                  forall p l', parent (h m) = Some p ->
                    returns (fun n => all_parents n h p) (Ok l') -> l = l').
  { destruct (parent (h m)) as [p|] eqn:Ep.
    - destruct (IH p Ep) as (_ & ps & _ & Hps & _).
      exists ps. split.
      + apply (returns_step _ (fun n => l0 <- all_parents n h p ;; Ok ([m] ++ l0))).
        * intros n. simpl. now rewrite Ep.
        * apply (returns_bind (fun n => all_parents n h p)
                   (fun _ l0 => Ok ([m] ++ l0)) Hps). apply returns_const.
      + intros p' l' Ep' Hl'. injection Ep' as <-.
        pose proof (returns_inj _ Hps Hl') as E. now injection E.
    - exists []. split; [| discriminate].
      exists 1. intros n Hn. destruct n; [lia|]. simpl. now rewrite Ep. }
  destruct Hps as (l & Hl & Hrest).
  assert (Hself :
            (isinstance h m Class.Resizer = true \/
             isinstance h m Class.ColorPicker = true \/
             parent (h m) = None \/
             exists p, parent (h m) = Some p /\ isinstance h p Class.Frame = true) ->
            (forall n, root_for_grab (S n) h m = Ok m) ->
            exists g ps,
              returns (fun n => root_for_grab n h m) (Ok g) /\
              returns (fun n => all_parents n h m) (Ok ps) /\
              In g ps /\
              (isinstance h g Class.Resizer = true \/
               isinstance h g Class.ColorPicker = true \/
               parent (h g) = None \/
               exists p, parent (h g) = Some p /\ isinstance h p Class.Frame = true) /\
              (g = m \/ isinstance h g Class.Frame = false) /\
              returns (fun n => root_for_grab n h g) (Ok g)).
  { intros Hstop Hn.
    assert (Hr : returns (fun n => root_for_grab n h m) (Ok m))
      by (exists 1; intros n Hle; destruct n; [lia | apply Hn]).
    exists m, (m :: l). split; [exact Hr|]. split; [exact Hl|].
    split; [now left|]. split; [exact Hstop|]. split; [now left | exact Hr]. }
  destruct (isinstance h m Class.Resizer || isinstance h m Class.ColorPicker) eqn:Eo.
  - apply Hself.
    + apply orb_true_iff in Eo. destruct Eo; auto.
    + intros n. rewrite root_for_grab_S. now rewrite Eo.
  - destruct (parent (h m)) as [p|] eqn:Ep.
    + destruct (isinstance h p Class.Frame) eqn:EF.
      * apply Hself.
        -- right. right. right. now exists p.
        -- intros n. rewrite root_for_grab_S. now rewrite Eo, Ep, EF.
      * destruct (IH p Ep) as (g & ps & Hg & Hps & Hin & Hstop & Hfr & Hidem).
        exists g, (m :: l). split; [| split; [exact Hl |]].
        -- refine (returns_step _ _ _ Hg). intros n.
           rewrite root_for_grab_S. now rewrite Eo, Ep, EF.
        -- rewrite (Hrest p ps eq_refl Hps). split; [now right|].
           split; [exact Hstop|]. split; [| exact Hidem].
           right. destruct Hfr as [->|Hfr]; [exact EF | exact Hfr].
    + apply Hself.
      * auto.
      * intros n. rewrite root_for_grab_S. now rewrite Eo, Ep.
Qed.

(** X21. For a morph whose chain of parents ends, [root_for_grab]
    returns one of the morph and its ancestors: a Resizer or a
    ColorPicker, or a morph without parent, or one whose parent is a
    Frame.  It never climbs into a Frame, so it returns the morph
    itself or a morph that is no Frame, and asked again on its result
    it returns the same. *)
Theorem root_for_grab_stops_below_a_frame h (m : ref) :
  ancestors_end h m ->
  exists g ps,
    returns (fun n => root_for_grab n h m) (Ok g) /\
    returns (fun n => all_parents n h m) (Ok ps) /\
    In g ps /\
    (isinstance h g Class.Resizer = true \/
     isinstance h g Class.ColorPicker = true \/
     parent (h g) = None \/
     exists p, parent (h g) = Some p /\ isinstance h p Class.Frame = true) /\
    (g = m \/ isinstance h g Class.Frame = false) /\
    returns (fun n => root_for_grab n h g) (Ok g).
Proof. apply root_for_grab_exact. Qed.
End Grabbing.

(** ** The morph under the pointer *)

Section Pointer.
Context {N : Type} `{Number N}.
Implicit Types h : @Heap N.

Lemma first_hit_is_a_hit n h p ms x :
  first_hit n h p ms = Ok (Some x) -> In x ms /\ hit n h p x = true.
Proof.
  induction ms as [|m ms IH]; intros E; [discriminate|].
  simpl in E. destruct (full_bounds n h m) as [fb| |] eqn:Efb; try discriminate.
  simpl in E.
  destruct (contains_point fb p && negb (isinstance h m Class.Shadow)) eqn:Eh.
  - injection E as <-. split; [now left|]. unfold hit. now rewrite Efb.
  - destruct (IH E) as [Hin Hhit]. split; [now right | exact Hhit].
Qed.

(** What [m.morph_at(p)] finds when [m] itself is a hit. *)
Lemma morph_at_exact h m p fb :
  subtree_ends h m ->
  returns (fun n => full_bounds n h m) (Ok fb) ->
  contains_point fb p && negb (isinstance h m Class.Shadow) = true ->
  exists x ft,
    returns (fun n => morph_at n h m p) (Ok (Some x)) /\
    descends h m x /\
    isinstance h x Class.Shadow = false /\
    returns (fun n => full_bounds n h x) (Ok ft) /\
    contains_point ft p = true.
Proof.
  intros Hdown Hfb Hhit.
  destruct (morph_at_hits p Hdown Hfb Hhit) as (x & Hx & Hd).
  destruct (full_bounds_returns (descends_subtree_ends Hd Hdown)) as (ft & Hft).
  exists x, ft. split; [exact Hx|]. split; [exact Hd|].
  destruct Hx as (n0 & Hn0). destruct Hft as (n1 & Hn1).
  pose proof (Hn0 (Nat.max n0 n1) ltac:(lia)) as E.
  unfold morph_at in E.
  destruct (all_children (Nat.max n0 n1) h m) as [ms| |]; try discriminate.
  simpl in E. apply first_hit_is_a_hit in E. destruct E as [_ E].
  unfold hit in E. rewrite (Hn1 (Nat.max n0 n1)) in E by lia.
  apply andb_true_iff in E. destruct E as [Ec Es].
  split; [now apply negb_true_iff in Es|]. split; [now exists n1 | exact Ec].
Qed.

(** The loop of [morph_at_pointer]. *)
Lemma hit_top_exact h p w ms :
  subtree_ends h w -> (forall c, In c ms -> In c (children (h w))) ->
  exists t,
    returns (fun n => hit_top n h p w ms) (Ok (Some t)) /\
    ((t = w /\
      forall c fb, In c ms -> returns (fun n => full_bounds n h c) (Ok fb) ->
        contains_point fb p && negb (isinstance h c Class.Shadow) && is_visible (h c)
        = false) \/
     (exists c fb ft,
        In c ms /\ is_visible (h c) = true /\ isinstance h c Class.Shadow = false /\
        returns (fun n => full_bounds n h c) (Ok fb) /\ contains_point fb p = true /\
        descends h c t /\ isinstance h t Class.Shadow = false /\
        returns (fun n => full_bounds n h t) (Ok ft) /\ contains_point ft p = true)).
Proof.
  intros Hdown. induction ms as [|m ms IH]; intros Hms.
  - exists w. split; [returns_now|]. left. split; [reflexivity | intros c fb []].
  - assert (Hm : descends h w m)
      by (apply descends_child with w; [apply descends_self | apply Hms; now left]).
    pose proof (descends_subtree_ends Hm Hdown) as Hdm.
    destruct (full_bounds_returns Hdm) as (fb & Hfb).
    assert (Hstep : forall v,
              (if contains_point fb p && negb (isinstance h m Class.Shadow)
                  && is_visible (h m)
               then returns (fun n => morph_at n h m p) v
               else returns (fun n => hit_top n h p w ms) v) ->
              returns (fun n => hit_top n h p w (m :: ms)) v).
    { intros v Hv. simpl.
      apply (returns_bind (fun n => full_bounds n h m)
               (fun n fb0 =>
                  if contains_point fb0 p && negb (isinstance h m Class.Shadow)
                     && is_visible (h m)
                  then morph_at n h m p else hit_top n h p w ms) Hfb).
      destruct (contains_point fb p && negb (isinstance h m Class.Shadow)
                && is_visible (h m)); exact Hv. }
    destruct (contains_point fb p && negb (isinstance h m Class.Shadow)
              && is_visible (h m)) eqn:Etest.
    + apply andb_true_iff in Etest. destruct Etest as [Ehit Evis].
      destruct (morph_at_exact p Hdm Hfb Ehit) as (x & ft & Hx & Hd & Hs & Hft & Hc).
      exists x. split; [exact (Hstep _ Hx)|]. right.
      apply andb_true_iff in Ehit. destruct Ehit as [Ecp Esh].
      exists m, fb, ft. split; [now left|]. split; [exact Evis|].
      split; [now apply negb_true_iff in Esh|]. auto 10.
    + destruct (IH (fun c Hc => Hms c (or_intror Hc))) as (t & Ht & Hspec).
      exists t. split; [exact (Hstep _ Ht)|].
      destruct Hspec as [[-> Hnone]|(c & fc & ft & Hc & Hrest)].
      * left. split; [reflexivity|]. intros c fc [<-|Hc] Hfc.
        -- pose proof (returns_inj _ Hfb Hfc) as E. injection E as <-. exact Etest.
        -- now apply Hnone.
      * right. exists c, fc, ft. split; [now right | exact Hrest].
Qed.

(** X22. [morph_at_pointer] raises [AttributeError] for a hand
    without world.  For a hand whose world has a finite subtree it
    returns a morph, never [None]: the world itself when no child of
    the world is visible, no Shadow and with full bounds containing
    the pointer; otherwise a morph at or below such a child, itself no
    Shadow and with full bounds containing the pointer. *)
Theorem morph_at_pointer_finds_a_morph h (hand : ref) :
  (_world (h hand) = None ->
   forall n, morph_at_pointer n h hand = Raise AttributeError) /\
  (forall w, _world (h hand) = Some w -> subtree_ends h w ->
   exists t,
     returns (fun n => morph_at_pointer n h hand) (Ok (Some t)) /\
     descends h w t /\
     ((t = w /\
       forall c fb, In c (children (h w)) ->
         returns (fun n => full_bounds n h c) (Ok fb) ->
         contains_point fb (origin (bounds (h hand)))
           && negb (isinstance h c Class.Shadow) && is_visible (h c) = false) \/
      (exists c fb ft,
         In c (children (h w)) /\ is_visible (h c) = true /\
         isinstance h c Class.Shadow = false /\
         returns (fun n => full_bounds n h c) (Ok fb) /\
         contains_point fb (origin (bounds (h hand))) = true /\
         descends h c t /\ isinstance h t Class.Shadow = false /\
         returns (fun n => full_bounds n h t) (Ok ft) /\
         contains_point ft (origin (bounds (h hand))) = true))).
Proof.
  split.
  - intros E n. unfold morph_at_pointer. now rewrite E.
  - intros w Ew Hdown.
    destruct (@hit_top_exact h (origin (bounds (h hand))) w (rev (children (h w))) Hdown
                (fun c Hc => proj2 (in_rev _ _) Hc)) as (t & Ht & Hspec).
    exists t. split; [unfold morph_at_pointer; rewrite Ew; exact Ht|].
    split.
    + destruct Hspec as [[-> _]|(c & fb & ft & Hc & _ & _ & _ & _ & Hd & _)];
        [apply descends_self|].
      apply descends_trans with c; [| exact Hd].
      apply descends_child with w; [apply descends_self | exact (proj2 (in_rev _ _) Hc)].
    + destruct Hspec as [[-> Hnone]|(c & fb & ft & Hc & Hrest)].
      * left. split; [reflexivity|]. intros c fb Hc. apply Hnone.
        exact (proj1 (in_rev _ _) Hc).
      * right. exists c, fb, ft. split; [exact (proj2 (in_rev _ _) Hc) | exact Hrest].
Qed.
End Pointer.

(** ** Pointer-down *)

Section PointerDown.
Context {N : Type} `{Number N}.
Implicit Types h : @Heap N.

Lemma World_handles_clicks h w :
  isinstance h w Class.World = true -> handles_mouse_click h w = true.
Proof.
  unfold isinstance, handles_mouse_click. destruct (cls (h w)); vm_compute; congruence.
Qed.

(** Two nodes below one another are one node. *)
Lemma descends_antisym h a b :
  subtree_ends h a -> descends h a b -> descends h b a -> a = b.
Proof.
  intros Hdown Hab Hba.
  destruct (descends_top Hab) as [E|(c & Hc & Hcb)]; [exact E|].
  exfalso. exact (no_cycle Hdown Hc (descends_trans Hcb Hba)).
Qed.

(** The walk to a morph that handles clicks ends at the world at the
    latest, for a morph below the world, and at the first such morph
    on its way up. *)
Lemma click_walk_returns h w x :
  tree_node_inv h -> subtree_ends h w ->
  handles_mouse_click h w = true ->
  descends h w x ->
  exists t, returns (fun n => click_walk n h (Some x)) (Ok t) /\
            handles_mouse_click h t = true /\
            descends h w t /\ descends h t x /\
            (forall a, descends h t a -> descends h a x -> a <> t ->
                       handles_mouse_click h a = false).
Proof.
  intros Hinv Hdown Hw Hd. induction Hd as [|x c Hd IH Hin].
  - exists w. split; [| split; [exact Hw | split; [| split]]];
      try apply descends_self.
    + exists 1. intros n Hn. destruct n as [|n]; [lia|]. simpl. now rewrite Hw.
    + intros a Hwa Haw Hne. exfalso. apply Hne. symmetry.
      exact (descends_antisym Hdown Hwa Haw).
  - assert (Hwc : descends h w c) by now apply descends_child with x.
    destruct (handles_mouse_click h c) eqn:Ec.
    + exists c. split; [| split; [exact Ec | split; [exact Hwc | split]]].
      * exists 1. intros n Hn. destruct n as [|n]; [lia|]. simpl. now rewrite Ec.
      * apply descends_self.
      * intros a Hca Hac Hne. exfalso. apply Hne. symmetry.
        exact (descends_antisym (descends_subtree_ends Hwc Hdown) Hca Hac).
    + destruct IH as (t & Ht & Hh & Hwt & Htx & Hnear). exists t.
      split; [| split; [exact Hh | split; [exact Hwt | split]]].
      * refine (returns_step _ _ _ Ht).
        intros n. simpl. rewrite Ec. now rewrite (proj2 (proj1 Hinv x c) Hin).
      * now apply descends_child with x.
      * intros a Hta Hac Hne.
        inversion Hac as [|x' c' Hax' Hin']; subst; [exact Ec|].
        assert (x' = x).
        { apply (proj2 (proj1 Hinv _ _)) in Hin, Hin'. congruence. }
        subst x'. now apply Hnear.
Qed.

(** Recording the morph to grab does not change the walk. *)
Lemma click_walk_grab n h hand v om :
  click_walk n (upd h hand (with_morph_to_grab (h hand) v)) om = click_walk n h om.
Proof.
  revert om. induction n as [|n IH]; intros om; [reflexivity|].
  simpl. destruct om as [m|]; [| reflexivity].
  assert (E : handles_mouse_click (upd h hand (with_morph_to_grab (h hand) v)) m
              = handles_mouse_click h m /\
              parent (upd h hand (with_morph_to_grab (h hand) v) m) = parent (h m)).
  { unfold handles_mouse_click.
    destruct (upd_cases h hand (with_morph_to_grab (h hand) v) m) as [[-> ->]|[_ ->]];
      split; reflexivity. }
  destruct E as [-> ->]. now rewrite IH.
Qed.

(** A pointer-down with nothing in the hand, no menu open and no
    text being edited. *)
Lemma process_mouse_down_plain n h hand ev w :
  children (h hand) = [] -> _world (h hand) = Some w ->
  open_menus (h w) = [] -> text_cursor (h w) = None ->
  process_mouse_down n h hand ev =
    (morph <- morph_at_pointer n h hand ;;
     match morph with
     | None => Raise AttributeError
     | Some m =>
         g <- root_for_grab n h m ;;
         t <- click_walk n h (Some m) ;;
         Ok (upd (upd h hand (with_morph_to_grab (h hand) (Some g))) hand
               (with_mouse_down_morph
                  (upd h hand (with_morph_to_grab (h hand) (Some g)) hand) (Some t)),
             match down_callback (button ev) with
             | Some cb => [mkCall t cb (pos ev)]
             | None => []
             end)
     end).
Proof.
  intros Ec Ew Eo Et. unfold process_mouse_down. rewrite Ec, Ew, Eo.
  destruct (morph_at_pointer n h hand) as [[m|]| |]; simpl; rewrite ?Et; simpl;
    try reflexivity.
  destruct (root_for_grab n h m) as [g| |]; simpl; try reflexivity.
  rewrite click_walk_grab.
  destruct (click_walk n h (Some m)) as [t| |]; simpl; try reflexivity.
  unfold down_callback.
  destruct (Z.eqb (button ev) BUTTON_LEFT); [reflexivity|].
  destruct (Z.eqb (button ev) BUTTON_MIDDLE); [reflexivity|].
  destruct (Z.eqb (button ev) BUTTON_RIGHT); reflexivity.
Qed.

(** X23. A pointer-down always finds its receiver: in a tree
    configuration, with nothing in the hand, no menu open and no text
    being edited, [process_mouse_down] returns.  It records as
    [morph_to_grab] what [root_for_grab] gives for the morph under the
    pointer and as [mouse_down_morph] the nearest morph at or above
    the one under the pointer that handles clicks, the world at the
    latest; it dispatches the down callback of the button on that
    morph, or nothing for a button other than left, middle and right,
    and changes no object but the hand. *)
Theorem pointer_down_finds_its_receiver h (hand w : ref) (ev : MouseEvent N) :
  children (h hand) = [] -> _world (h hand) = Some w ->
  open_menus (h w) = [] -> text_cursor (h w) = None ->
  isinstance h w Class.World = true ->
  tree_node_inv h -> (forall r, ancestors_end h r) -> subtree_ends h w ->
  exists m g t h',
    returns (fun n => morph_at_pointer n h hand) (Ok (Some m)) /\
    returns (fun n => root_for_grab n h m) (Ok g) /\
    handles_mouse_click h t = true /\
    descends h w t /\ descends h t m /\
    (forall a, descends h t a -> descends h a m -> a <> t ->
               handles_mouse_click h a = false) /\
    returns (fun n => process_mouse_down n h hand ev)
      (Ok (h', match down_callback (button ev) with
               | Some cb => [mkCall t cb (pos ev)]
               | None => []
               end)) /\
    morph_to_grab (h' hand) = Some g /\
    mouse_down_morph (h' hand) = Some t /\
    (forall r, r <> hand -> h' r = h r).
Proof.
  intros Ec Ew Eo Et HW Hinv Hup Hdown.
  destruct (@morph_at_pointer_returns N _ h hand w Ew Hdown) as (m & Hm & Hd).
  destruct (root_for_grab_exact (Hup m)) as (g & _ & Hg & _).
  destruct (@click_walk_returns h w m Hinv Hdown (@World_handles_clicks h w HW) Hd)
    as (t & Ht & Hh & Hwt & Htm & Hnear).
  exists m, g, t.
  eexists. split; [exact Hm|]. split; [exact Hg|]. split; [exact Hh|].
  split; [exact Hwt|]. split; [exact Htm|]. split; [exact Hnear|].
  split; [| split; [| split]].
  - apply (returns_ext _ _ (fun n => @process_mouse_down_plain n h hand ev w Ec Ew Eo Et)).
    apply (returns_bind (fun n => morph_at_pointer n h hand) _ Hm).
    apply (returns_bind (fun n => root_for_grab n h m) _ Hg).
    apply (returns_bind (fun n => click_walk n h (Some m)) _ Ht).
    apply returns_const.
  - now rewrite !upd_same.
  - now rewrite !upd_same.
  - intros r Hr. now rewrite !upd_other by exact Hr.
Qed.
End PointerDown.

(** ** More fuel gives the same result *)

Section Fuel.
Context {N : Type} `{Number N}.
Implicit Types h : @Heap N.

Lemma returns_from {A} (f : nat -> result A) n0 v :
  (forall n a, f n = Ok a -> f (S n) = Ok a) -> f n0 = Ok v -> returns f (Ok v).
Proof.
  intros Hmono E. exists n0. intros n Hn. induction Hn as [|n Hn IH]; [exact E|].
  now apply Hmono.
Qed.

Lemma merge_all_mono (F G : ref -> result (Rectangle N)) cs :
  (forall c b, F c = Ok b -> G c = Ok b) ->
  forall acc r, merge_all F cs acc = Ok r -> merge_all G cs acc = Ok r.
Proof.
  intros HFG. induction cs as [|c cs IH]; intros acc r E; [exact E|].
  simpl in *. destruct (F c) as [b| |] eqn:Eb; try discriminate.
  rewrite (HFG c b Eb). simpl in *. now apply IH.
Qed.

Lemma full_bounds_mono n : forall h m b,
  full_bounds n h m = Ok b -> full_bounds (S n) h m = Ok b.
Proof.
  induction n as [|n IH]; intros h m b E; [discriminate|].
  change (full_bounds (S (S n)) h m) with
    (match Class.resolve [Class.Morph; Class.Frame] (cls (h m)) with
     | Some Class.Frame =>
         match get_shadow h m with
         | Some shadow => Ok (merge (bounds (h m)) (bounds (h shadow)))
         | None => Ok (bounds (h m))
         end
     | _ => merge_all (full_bounds (S n) h) (children (h m)) (bounds (h m))
     end).
  change (full_bounds (S n) h m) with
    (match Class.resolve [Class.Morph; Class.Frame] (cls (h m)) with
     | Some Class.Frame =>
         match get_shadow h m with
         | Some shadow => Ok (merge (bounds (h m)) (bounds (h shadow)))
         | None => Ok (bounds (h m))
         end
     | _ => merge_all (full_bounds n h) (children (h m)) (bounds (h m))
     end) in E.
  destruct (Class.resolve [Class.Morph; Class.Frame] (cls (h m))) as [k|];
    [destruct k|]; try exact E;
    exact (merge_all_mono (full_bounds n h) (full_bounds (S n) h) _
             (fun c b0 => IH h c b0) _ E).
Qed.

Lemma extend_all_mono (F G : ref -> result (list ref)) cs :
  (forall c l, F c = Ok l -> G c = Ok l) ->
  forall acc r, extend_all F cs acc = Ok r -> extend_all G cs acc = Ok r.
Proof.
  intros HFG. induction cs as [|c cs IH]; intros acc r E; [exact E|].
  simpl in *. destruct (F c) as [l| |] eqn:El; try discriminate.
  rewrite (HFG c l El). simpl in *. now apply IH.
Qed.

Lemma all_children_mono n : forall h m l,
  all_children n h m = Ok l -> all_children (S n) h m = Ok l.
Proof.
  induction n as [|n IH]; intros h m l E; [discriminate|].
  exact (extend_all_mono (all_children n h) (all_children (S n) h) _
           (fun c l0 => IH h c l0) _ E).
Qed.

Lemma first_hit_mono n h p ms r :
  first_hit n h p ms = Ok r -> first_hit (S n) h p ms = Ok r.
Proof.
  induction ms as [|m ms IH]; intros E; [exact E|].
  cbn [first_hit] in *.
  destruct (full_bounds n h m) as [fb| |] eqn:Efb; try discriminate.
  rewrite (full_bounds_mono _ _ _ Efb). unfold bind in *.
  destruct (contains_point fb p && negb (isinstance h m Class.Shadow));
    [exact E | now apply IH].
Qed.

Lemma morph_at_mono n h m p r :
  morph_at n h m p = Ok r -> morph_at (S n) h m p = Ok r.
Proof.
  unfold morph_at. intros E.
  destruct (all_children n h m) as [l| |] eqn:El; try discriminate.
  rewrite (all_children_mono _ _ _ El). unfold bind in *.
  now apply first_hit_mono.
Qed.

Lemma hit_top_mono n h p w ms r :
  hit_top n h p w ms = Ok r -> hit_top (S n) h p w ms = Ok r.
Proof.
  induction ms as [|m ms IH]; intros E; [exact E|].
  cbn [hit_top] in *.
  destruct (full_bounds n h m) as [fb| |] eqn:Efb; try discriminate.
  rewrite (full_bounds_mono _ _ _ Efb). unfold bind in *.
  destruct (contains_point fb p && negb (isinstance h m Class.Shadow)
            && is_visible (h m)); [now apply morph_at_mono | now apply IH].
Qed.

Lemma morph_at_pointer_mono n h hand r :
  morph_at_pointer n h hand = Ok r -> morph_at_pointer (S n) h hand = Ok r.
Proof.
  unfold morph_at_pointer. destruct (_world (h hand)); [apply hit_top_mono | trivial].
Qed.
End Fuel.

(** ** A pointer-down on the text cursor *)

Section CursorClick.
Context {N : Type} `{Number N}.
Implicit Types h : @Heap N.

Lemma remove_child_cls h p m h' :
  remove_child h p m = Ok h' -> forall r, cls (h' r) = cls (h r).
Proof.
  unfold remove_child. destruct (list_remove m (children (h p))) as [l|]; [| discriminate].
  intros E r. injection E as <-. unfold upd.
  destruct (Nat.eqb_spec r m) as [Erm|Erm]; [rewrite <- Erm |];
    destruct (Nat.eqb_spec r p) as [Erp|Erp]; try rewrite <- Erp; reflexivity.
Qed.

(** [delete] leaves a morph of a tree without parent. *)
Lemma delete_detaches h m :
  tree_node_inv h -> ancestors_end h m -> subtree_ends h m ->
  exists h', returns (fun n => delete n h m) (Ok h') /\
             parent (h' m) = None /\
             (forall r, cls (h' r) = cls (h r)).
Proof.
  intros Hinv Hup Hdown. destruct (parent (h m)) as [p|] eqn:Ep.
  - destruct (full_changed_returns Hup Hdown) as (w & fb & _ & _ & Hfc).
    set (h1 := if isinstance h w Class.World then append_broken h w fb else h) in *.
    assert (D1 : only_damage h h1).
    { unfold h1. destruct (isinstance h w Class.World);
        [apply append_broken_damage | apply only_damage_refl]. }
    pose proof (only_damage_links D1) as L1.
    assert (Hin : In m (children (h1 p))).
    { destruct (L1 p) as (_ & _ & -> & _). now apply (proj1 Hinv). }
    destruct (@remove_child_keeps_inv N h1 p m (tree_node_inv_links L1 Hinv) Hin)
      as (h' & Eh' & Hnone & _).
    exists h'. split; [| split; [exact Hnone |]].
    + unfold delete. rewrite Ep.
      apply (returns_bind (fun n => full_changed n h m)
               (fun _ g => remove_child g p m) Hfc).
      rewrite Eh'. apply returns_const.
    + intros r. rewrite (remove_child_cls _ _ _ Eh' r). now destruct (L1 r) as (-> & _).
  - exists h. split; [| split; [exact Ep | reflexivity]].
    exists 0. intros n _. unfold delete. now rewrite Ep.
Qed.

(** X24. A pointer-down on the text cursor raises.  With nothing in
    the hand and no menu open, while a text is edited in a tree
    configuration and the morph under the pointer is the world's
    text cursor (whose target is the string, not the cursor), the
    world stops editing, which deletes the cursor from its parent;
    the walk to a morph that handles clicks then starts at the cursor,
    which does not, goes on to its parent, now [None], and
    [process_mouse_down] raises [AttributeError]. *)
Theorem pointer_down_on_the_text_cursor_raises h (hand w tc : ref)
    (ev : MouseEvent N) :
  children (h hand) = [] -> _world (h hand) = Some w ->
  open_menus (h w) = [] -> text_cursor (h w) = Some tc ->
  cls (h tc) = Class.TextCursor -> target (h tc) <> Some tc ->
  tree_node_inv h -> ancestors_end h tc -> subtree_ends h tc ->
  returns (fun n => morph_at_pointer n h hand) (Ok (Some tc)) ->
  returns (fun n => process_mouse_down n h hand ev) (Raise AttributeError).
Proof.
  intros Ec Ew Eo Etc Ecls Etarget Hinv Hup Hdown (n0 & Hn0).
  destruct (delete_detaches Hinv Hup Hdown) as (h1 & (n1 & Hn1) & Hnone & Hcls).
  set (h2 := upd h1 w (with_keyboard_receiver (h1 w) None)).
  assert (Hcls2 : cls (h2 tc) = Class.TextCursor).
  { rewrite <- Ecls, <- (Hcls tc). unfold h2, upd.
    destruct (Nat.eqb_spec tc w) as [E|E]; [rewrite E|]; reflexivity. }
  assert (Hnone2 : parent (h2 tc) = None).
  { rewrite <- Hnone. unfold h2, upd.
    destruct (Nat.eqb_spec tc w) as [E|E]; [rewrite E|]; reflexivity. }
  assert (Hsame : same_ref (Some tc) (target (h tc)) = false).
  { destruct (target (h tc)) as [t|]; [| reflexivity]. simpl.
    apply Nat.eqb_neq. intros ->. now apply Etarget. }
  exists (Nat.max (Nat.max n0 n1) 2). intros n Hn.
  unfold process_mouse_down. rewrite Ec, (Hn0 n) by lia. cbn [bind].
  rewrite Ew, Eo. cbn [dismiss_menus bind]. rewrite Etc, Hsame. cbn [negb].
  unfold stop_editing. rewrite Etc, (Hn1 n) by lia. cbn [bind]. fold h2.
  destruct n as [|[|n]]; [lia | lia |].
  assert (Hplain : isinstance h2 tc Class.Resizer || isinstance h2 tc Class.ColorPicker
                   = false)
    by (unfold isinstance; rewrite Hcls2; reflexivity).
  assert (Hdeaf : handles_mouse_click h2 tc = false)
    by (unfold handles_mouse_click; rewrite Hcls2; reflexivity).
  rewrite root_for_grab_S, Hplain, Hnone2. cbn [bind].
  rewrite click_walk_grab.
  cbn [click_walk]. rewrite Hdeaf, Hnone2. reflexivity.
Qed.
End CursorClick.

(** ** The editing desk is a tree configuration *)

Section EditingFacts.
Context {N : Type} `{Number N}.

Lemma editing_links : tree_node_inv (@editing N _).
Proof.
  split.
  - intros n c. do 9 (try (destruct c as [|c])); do 9 (try (destruct n as [|n])); simpl;
      (split; intros Hx; try discriminate; try reflexivity;
       repeat (destruct Hx as [Hx|Hx]; try discriminate);
       try contradiction; try (injection Hx as Hx; discriminate);
       try (now left); try (right; now left); try (right; right; now left);
       try (right; right; right; now left)).
  - intros n. do 9 (try (destruct n as [|n])); simpl; repeat constructor; simpl;
      intuition discriminate.
Qed.

Lemma editing_ancestors_end r : ancestors_end (@editing N _) r.
Proof.
  revert r. apply (ancestors_end_by_depth _ editing_depth).
  intros c p. do 9 (try (destruct c as [|c])); simpl; intros E; try discriminate;
    injection E as <-; simpl; lia.
Qed.
End EditingFacts.

(** ** Runs of moves, visibility and the pointer *)

(** X16, on the desk: the string field [4] and its string [5] are
    moved by (10,0). *)
Lemma move_by_on_the_desk :
  exists g,
    returns (fun n => move_by n (@desk Z _) 4 (mkPoint 10 0)%Z) (Ok g) /\
    bounds (g 5) = rect 210 100 240 120 /\
    bounds (g 2) = rect 0 0 50 40.
Proof.
  destruct (@move_by_translates_the_subtree Z _ desk 4 (mkPoint 10 0)%Z
              desk_ancestors_end desk_links (desk_subtree_ends 4))
    as (g & Hg & Hin & Hout & _).
  exists g. split; [exact Hg|]. split.
  - rewrite (Hin 5); [reflexivity|].
    apply descends_child with (x := 4); [apply descends_self | simpl; auto].
  - rewrite (Hout 2); [reflexivity|].
    intros Hd. inversion Hd as [|x c Hx Hc]; subst.
    apply (proj2 (proj1 (@desk_links Z _) x 2)) in Hc. simpl in Hc.
    injection Hc as <-. inversion Hx as [|x c Hx' Hc']; subst.
    apply (proj2 (proj1 (@desk_links Z _) x 0)) in Hc'. discriminate.
Defined.

(** X17, on the desk: the morph [2] of the world is moved by (3,4). *)
Lemma move_by_damage_on_the_desk :
  exists w g,
    returns (fun n => root n (@desk Z _) 2) (Ok w) /\
    returns (fun n => move_by n (@desk Z _) 2 (mkPoint 3 4)%Z) (Ok g) /\
    bounds (g 2) = translate_by (bounds (@desk Z _ 2)) (mkPoint 3 4)%Z /\
    (isinstance (@desk Z _) w Class.World = true ->
     exists mid,
       broken (g w) = broken (@desk Z _ w) ++ [bounds (@desk Z _ 2)] ++ mid
                        ++ [translate_by (bounds (@desk Z _ 2)) (mkPoint 3 4)%Z] /\
       (children (@desk Z _ 2) = [] -> mid = [])).
Proof.
  apply move_by_reports_old_and_new_bounds.
  - exact desk_ancestors_end.
  - exact (desk_subtree_ends 2).
  - reflexivity.
Defined.

(** X18, on the desk: the string field [4] is put at (0,0). *)
Lemma set_position_on_the_desk :
  exists g,
    returns (fun n => set_position n (@desk Z _) 4 (mkPoint 0 0)%Z) (Ok g) /\
    origin (bounds (g 4)) = (mkPoint 0 0)%Z.
Proof.
  destruct (@set_position_moves_the_subtree desk 4 (mkPoint 0 0)%Z
              desk_ancestors_end desk_links (desk_subtree_ends 4))
    as (g & Hg & Ho & _).
  exists g. split; [exact Hg | exact Ho].
Defined.

(** X19, on the desk: the string field [4] is hidden and shown. *)
Lemma hide_then_show_on_the_desk :
  exists g1 g2,
    returns (fun n => hide n (@desk Z _) 4) (Ok g1) /\
    returns (fun n => show n g1 4) (Ok g2) /\
    is_visible (g1 4) = false /\ is_visible (g2 4) = true.
Proof.
  destruct (@hide_then_show_shows_the_subtree Z _ desk 4
              desk_ancestors_end desk_links (desk_subtree_ends 4))
    as (g1 & g2 & H1 & H2 & Hin & _).
  exists g1, g2. split; [exact H1|]. split; [exact H2|].
  exact (Hin 4 (descends_self _ _)).
Defined.

(** X20, on the desk: the string field [4] is toggled twice. *)
Lemma toggle_visibility_on_the_desk :
  exists g1 g2,
    returns (fun n => toggle_visibility n (@desk Z _) 4) (Ok g1) /\
    returns (fun n => toggle_visibility n g1 4) (Ok g2) /\
    is_visible (g1 4) = false /\
    (forall r, is_visible (g2 r) = is_visible (@desk Z _ r)).
Proof.
  destruct (@toggle_visibility_twice Z _ desk 4
              desk_ancestors_end desk_links (desk_subtree_ends 4))
    as (g1 & g2 & H1 & H2 & Hin & _ & Hback & _).
  exists g1, g2. split; [exact H1|]. split; [exact H2|].
  split; [exact (Hin 4 (descends_self _ _)) | exact Hback].
Defined.

(** X21, on the desk: the string [5] of the string field. *)
Lemma root_for_grab_on_the_desk :
  exists g, returns (fun n => root_for_grab n (@desk Z _) 5) (Ok g) /\
            (g = 5 \/ isinstance (@desk Z _) g Class.Frame = false).
Proof.
  destruct (root_for_grab_stops_below_a_frame (desk_ancestors_end (N := Z) 5))
    as (g & ps & Hg & _ & _ & _ & Hfr & _).
  exists g. split; [exact Hg | exact Hfr].
Defined.

(** X22, on the desk: the hand [1] of the world [0]. *)
Lemma morph_at_pointer_on_the_desk :
  exists t,
    returns (fun n => morph_at_pointer n (@desk Z _) 1) (Ok (Some t)) /\
    descends (@desk Z _) 0 t.
Proof.
  destruct (proj2 (@morph_at_pointer_finds_a_morph Z _ desk 1) 0 eq_refl
              (desk_subtree_ends 0)) as (t & Ht & Hd & _).
  exists t. split; [exact Ht | exact Hd].
Defined.

(** X23, on the desk: a left-button pointer-down. *)
Lemma pointer_down_on_the_desk :
  exists t h',
    returns (fun n => process_mouse_down n (@desk Z _) 1
                        (mkEvent (mkPoint 210 110)%Z BUTTON_LEFT))
      (Ok (h', [mkCall t mouse_down_left (mkPoint 210 110)%Z])) /\
    handles_mouse_click (@desk Z _) t = true /\
    mouse_down_morph (h' 1) = Some t.
Proof.
  destruct (@pointer_down_finds_its_receiver Z _ desk 1 0
              (mkEvent (mkPoint 210 110)%Z BUTTON_LEFT)
              eq_refl eq_refl eq_refl eq_refl eq_refl
              desk_links desk_ancestors_end (desk_subtree_ends 0))
    as (m & g & t & h' & _ & _ & Hh & _ & _ & _ & Hdown & _ & Hrec & _).
  exists t, h'. split; [exact Hdown|]. split; [exact Hh | exact Hrec].
Defined.

(** X24, while the string [5] is edited: a pointer-down on the text
    cursor [8]. *)
Lemma pointer_down_on_the_text_cursor_while_editing :
  returns (fun n => process_mouse_down n (@editing Z _) 1
                      (mkEvent (mkPoint 210 110)%Z BUTTON_LEFT))
    (Raise AttributeError).
Proof.
  apply (@pointer_down_on_the_text_cursor_raises Z _ editing 1 0 8);
    try reflexivity.
  - discriminate.
  - exact editing_links.
  - exact (editing_ancestors_end 8).
  - constructor. intros c Hc. destruct Hc.
  - apply (returns_from (fun n => morph_at_pointer n (@editing Z _) 1) 3).
    + intros n a. apply morph_at_pointer_mono.
    + reflexivity.
Defined.
